(** * Pages publisher: the publish orchestrator (PublishService.ts) and the
      small utilities it sits next to (isUnset, selfish).

    The development is a shallow embedding.  JavaScript objects used as
    records of string-keyed fields are finite maps; the orchestrator's
    reactive fields are a record that is threaded through every synchronous
    segment of code; an [await] splits an async function into the segment
    that runs up to the suspension and the segments that run when the awaited
    promise settles; every call made to a collaborator is written to a list.
*)

From Stdlib Require Import Ascii.
From stdpp Require Import base strings list gmap pretty.

Open Scope string_scope.
Set Warnings "-clear-no-such-hyp".

(** ** JavaScript values held in string-typed fields *)

(** The [Github] interface types its fields as strings, some of them
    optional, and persisted data may hold [null]: a field that is present
    holds [undefined], [null] or a string.  A key that is absent is a missing
    binding of the finite map, not a value. *)
Inductive JsVal :=
| JUndefined
| JNull
| JString (s : string).

#[global] Instance JsVal_eq_dec : EqDecision JsVal.
Proof. solve_decision. Defined.

(** An object with string keys ([Github], [Partial<Github>]). *)
Abbreviation JsObject := (gmap string JsVal).

(** ** lodash and built-ins, as far as the sources use them *)

Module Lodash.

(** [isNil(value)]: [value == null]. *)
Definition isNil (value : JsVal) : bool :=
  match value with
  | JUndefined | JNull => true
  | JString _ => false
  end.

(** [isEmpty(value)]: nil values are empty, a string is empty when its
    length is zero. *)
Definition isEmpty (value : JsVal) : bool :=
  match value with
  | JUndefined | JNull => true
  | JString s => Nat.eqb (String.length s) 0
  end.

(** [pick(object, paths)]: [{}] for a nil object; otherwise the paths are
    visited in order and each one the object has is copied. *)
Definition basePick (object : JsObject) (paths : list string) : JsObject :=
  foldr (λ path result,
           match object !! path with
           | Some value => <[path := value]> result
           | None => result
           end) ∅ paths.

Definition pick (object : option JsObject) (paths : list string) : JsObject :=
  match object with
  | None => ∅
  | Some o => basePick o paths
  end.

(** [omit(object, paths)]: a copy without the listed keys. *)
Definition omit (object : JsObject) (paths : list string) : JsObject :=
  foldr (λ path result, delete path result) object paths.

(** [some(collection, predicate)] over the values of an object. *)
Definition some (collection : JsObject) (predicate : JsVal → bool) : bool :=
  existsb (λ kv, predicate kv.2) (map_to_list collection).

End Lodash.

(** [Object.keys(o).length] *)
Definition Object_keys_length (o : JsObject) : nat := size o.

(** [Object.assign(target, source)]: every key of [source] overwrites. *)
Definition Object_assign (target source : JsObject) : JsObject := source ∪ target.

(** ** utils: isUnset *)

(** [isUnset = (value) => isNil(value) || value === ''] *)
Definition isUnset (value : JsVal) : bool :=
  Lodash.isNil value || bool_decide (value = JString "").

(** ** Strings: template literals and [String.prototype.trim] *)

(** A string of the program is held as the byte string of its UTF-8
    encoding. *)
Definition bytes (codes : list nat) : string :=
  foldr (λ n s, String (ascii_of_nat n) s) "" codes.

(** What [trim] strips, in UTF-8: the WhiteSpace code points (TAB, VT, FF,
    SPACE, NO-BREAK SPACE, U+1680, U+2000 to U+200A, U+202F, U+205F, U+3000,
    U+FEFF) and the LineTerminator code points (LF, CR, U+2028, U+2029). *)
Definition whiteSpace : list string :=
  bytes <$>
    [ [9]; [10]; [11]; [12]; [13]; [32];
      [194; 160];
      [225; 154; 128];
      [226; 128; 128]; [226; 128; 129]; [226; 128; 130]; [226; 128; 131];
      [226; 128; 132]; [226; 128; 133]; [226; 128; 134]; [226; 128; 135];
      [226; 128; 136]; [226; 128; 137]; [226; 128; 138];
      [226; 128; 168]; [226; 128; 169]; [226; 128; 175];
      [226; 129; 159];
      [227; 128; 128];
      [239; 187; 191] ].

Fixpoint isPrefix (w l : list ascii) : bool :=
  match w, l with
  | [], _ => true
  | a :: w', b :: l' => bool_decide (a = b) && isPrefix w' l'
  | _ :: _, [] => false
  end.

(** One leading code point of [ws] taken off [l], when there is one. *)
Definition stripOne (ws : list (list ascii)) (l : list ascii)
    : option (list ascii) :=
  (λ w, drop (length w) l) <$> List.find (λ w, isPrefix w l) ws.

(** Leading code points of [ws] are taken off one after the other; each one
    shortens the text, so its length bounds the number of rounds. *)
Fixpoint stripAll (rounds : nat) (ws : list (list ascii)) (l : list ascii)
    : list ascii :=
  match rounds with
  | O => l
  | S n =>
      match stripOne ws l with
      | Some rest => stripAll n ws rest
      | None => l
      end
  end.

Definition trimStartBytes (ws : list (list ascii)) (l : list ascii) : list ascii :=
  stripAll (length l) ws l.

Definition trimEndBytes (ws : list (list ascii)) (l : list ascii) : list ascii :=
  reverse (trimStartBytes (reverse <$> ws) (reverse l)).

Definition whiteSpaceBytes : list (list ascii) :=
  String.list_ascii_of_string <$> whiteSpace.

Definition trimStart (s : string) : string :=
  String.string_of_list_ascii (trimStartBytes whiteSpaceBytes (String.list_ascii_of_string s)).

Definition trimEnd (s : string) : string :=
  String.string_of_list_ascii (trimEndBytes whiteSpaceBytes (String.list_ascii_of_string s)).

Definition trim (s : string) : string := trimEnd (trimStart s).

(** The text consists of code points [trim] strips and of nothing else. *)
Inductive WhiteSpaceOnly : string → Prop :=
| WhiteSpaceOnly_nil : WhiteSpaceOnly ""
| WhiteSpaceOnly_cons w s :
    w ∈ whiteSpace → WhiteSpaceOnly s → WhiteSpaceOnly (w +:+ s).

Definition startsWithWhiteSpace (s : string) : Prop :=
  ∃ w rest, w ∈ whiteSpace ∧ s = w +:+ rest.

Definition endsWithWhiteSpace (s : string) : Prop :=
  ∃ w front, w ∈ whiteSpace ∧ s = front +:+ w.

(** The bytes are code points of [ws], one after the other. *)
Inductive onlyOf (ws : list (list ascii)) : list ascii → Prop :=
| onlyOf_nil : onlyOf ws []
| onlyOf_cons w l : w ∈ ws → onlyOf ws l → onlyOf ws (w ++ l)%list.

(** [`${n}`] for a non-negative integer: its decimal numeral. *)
Definition Number_toString (n : nat) : string := pretty n.

(** ** model/Publishing and model/GitClient: the types the service imports *)

(** [enum PublishResults]; its members are the keys of
    [PUBLISH_RESULT_MESSAGE]. *)
Module PublishResults.
Inductive t := Terminated | Fail | Success.
#[global] Instance PublishResults_eq_dec : EqDecision t.
Proof. solve_decision. Defined.
End PublishResults.

(** [class PublishError]: a [type] and a message that may be left out. *)
Module PublishError.
Record t := mk { type : PublishResults.t; message : option string }.
End PublishError.

(** What a [catch] clause can receive: a [PublishError], or any other
    [Error] with its message. *)
Inductive JsError :=
| EPublishError (e : PublishError.t)
| EError (message : string).

(** [error instanceof PublishError] *)
Definition instanceof_PublishError (error : JsError) : option PublishError.t :=
  match error with
  | EPublishError e => Some e
  | EError _ => None
  end.

Module GeneratingProgress.
Inductive result_t := success | fail.
Record t := mk { result : option result_t; message : string }.
(** A [GeneratingProgress] with some keys left out. *)
Record partial := mk_partial {
  p_result : option (option result_t);
  p_message : option string }.
Definition all (p : t) : partial :=
  {| p_result := Some (result p); p_message := Some (message p) |}.
(** [Object.assign(progress, source)] *)
Definition assign (progress : t) (source : partial) : t :=
  {| result := default (result progress) (p_result source);
     message := default (message progress) (p_message source) |}.
End GeneratingProgress.

Module PublishingProgress.
Record t := mk {
  phase : string;
  message : string;
  result : option PublishResults.t }.
(** A [Partial<PublishingProgress>]. *)
Record partial := mk_partial {
  p_phase : option string;
  p_message : option string;
  p_result : option (option PublishResults.t) }.
Definition all (p : t) : partial :=
  {| p_phase := Some (phase p); p_message := Some (message p);
     p_result := Some (result p) |}.
(** [Object.assign(progress, source)] *)
Definition assign (progress : t) (source : partial) : t :=
  {| phase := default (phase progress) (p_phase source);
     message := default (message progress) (p_message source);
     result := default (result progress) (p_result source) |}.
End PublishingProgress.

(** Modelled from the spec: the constant [initialGeneratingProgress] of
    model/Publishing is not among the sources; the spec calls it the initial
    empty value of [{ result: unset | "success" | "fail", message: string }],
    every key present. *)
Definition initialGeneratingProgress : GeneratingProgress.t :=
  {| GeneratingProgress.result := None; GeneratingProgress.message := "" |}.

(** Modelled from the spec: the constant [initialPublishProgress] of
    model/Publishing is not among the sources; the spec calls it the initial
    empty value of [{ phase: string, message: string, result: unset |
    Terminated | Fail | Success }], every key present. *)
Definition initialPublishProgress : PublishingProgress.t :=
  {| PublishingProgress.phase := "";
     PublishingProgress.message := "";
     PublishingProgress.result := None |}.

(** ** PublishService.ts *)

Module LocalRepoStatus.
Inductive t := Ready | Fail | Initializing | MissingRepository.
#[global] Instance LocalRepoStatus_eq_dec : EqDecision t.
Proof. solve_decision. Defined.
End LocalRepoStatus.

Definition PUBLISH_RESULT_MESSAGE (type : PublishResults.t) : string :=
  match type with
  | PublishResults.Terminated => "Publishing terminated."
  | PublishResults.Fail =>
      "This is an unexpected error, you can retry, and report it as a Github issue"
  | PublishResults.Success => ""
  end.

(** Calls the service makes to its collaborators, to the timer and to the
    console. *)
Inductive Call :=
| GeneratorGetOutputDir
| GeneratorGenerateSite
| GitInit (outputDir : string)
| GitPush (files : list string) (needToInit : bool)
| GitTerminate
| GithubInit (githubInfo : JsObject)
| GithubGetRepositoryName
| GithubCreateRepository
| JoplinGetGithubToken
| PluginGetGithubInfo
| PluginSaveGithubInfo (githubInfo : JsObject)
| AppGetLatestWarning
| SetTimeout (ms : nat)
| ConsoleError (text : string).

(** The fields of [PublishService]: [files] and the reactive values. *)
Record State := mkState {
  files : list string;
  localRepoStatus : LocalRepoStatus.t;
  repositoryName : string;
  githubInfo : option JsObject;
  isGenerating : bool;
  isPublishing : bool;
  outputDir : string;
  generatingProgress : GeneratingProgress.t;
  publishingProgress : PublishingProgress.t }.

Definition set_files v (s : State) : State :=
  mkState v (localRepoStatus s) (repositoryName s) (githubInfo s) (isGenerating s)
    (isPublishing s) (outputDir s) (generatingProgress s) (publishingProgress s).
Definition set_localRepoStatus v (s : State) : State :=
  mkState (files s) v (repositoryName s) (githubInfo s) (isGenerating s)
    (isPublishing s) (outputDir s) (generatingProgress s) (publishingProgress s).
Definition set_repositoryName v (s : State) : State :=
  mkState (files s) (localRepoStatus s) v (githubInfo s) (isGenerating s)
    (isPublishing s) (outputDir s) (generatingProgress s) (publishingProgress s).
Definition set_githubInfo v (s : State) : State :=
  mkState (files s) (localRepoStatus s) (repositoryName s) v (isGenerating s)
    (isPublishing s) (outputDir s) (generatingProgress s) (publishingProgress s).
Definition set_isGenerating v (s : State) : State :=
  mkState (files s) (localRepoStatus s) (repositoryName s) (githubInfo s) v
    (isPublishing s) (outputDir s) (generatingProgress s) (publishingProgress s).
Definition set_isPublishing v (s : State) : State :=
  mkState (files s) (localRepoStatus s) (repositoryName s) (githubInfo s) (isGenerating s)
    v (outputDir s) (generatingProgress s) (publishingProgress s).
Definition set_outputDir v (s : State) : State :=
  mkState (files s) (localRepoStatus s) (repositoryName s) (githubInfo s) (isGenerating s)
    (isPublishing s) v (generatingProgress s) (publishingProgress s).
Definition set_generatingProgress v (s : State) : State :=
  mkState (files s) (localRepoStatus s) (repositoryName s) (githubInfo s) (isGenerating s)
    (isPublishing s) (outputDir s) v (publishingProgress s).
Definition set_publishingProgress v (s : State) : State :=
  mkState (files s) (localRepoStatus s) (repositoryName s) (githubInfo s) (isGenerating s)
    (isPublishing s) (outputDir s) (generatingProgress s) v.

(** The field initialisers of the class. *)
Definition newService : State :=
  {| files := [];
     localRepoStatus := LocalRepoStatus.Initializing;
     repositoryName := "";
     githubInfo := None;
     isGenerating := false;
     isPublishing := false;
     outputDir := "";
     generatingProgress := initialGeneratingProgress;
     publishingProgress := initialPublishProgress |}.

(** How a synchronous segment of a method ends: the method returns (its
    promise resolves), throws (its promise rejects), or suspends at an
    [await] with what remains to run. *)
Inductive Completion (K : Type) :=
| Return
| Throw (error : JsError)
| Await (k : K).
Arguments Return {K}.
Arguments Throw {K} error.
Arguments Await {K} k.

(** A segment yields the calls it made, in order, how it ended, and the
    fields as it left them. *)
Record Outcome (K : Type) := mkOutcome {
  calls : list Call;
  completion : Completion K;
  state : State }.
Arguments mkOutcome {K}.
Arguments calls {K}.
Arguments completion {K}.
Arguments state {K}.

(** *** Computed values *)

Definition isRepositoryMissing (s : State) : bool :=
  bool_decide (localRepoStatus s = LocalRepoStatus.MissingRepository).

Definition requiredKeys : list string := ["userName"; "email"; "token"].

(** [isGithubInfoValid], a function of [githubInfo] alone. *)
Definition isGithubInfoValid (githubInfo : option JsObject) : bool :=
  let keyInfos := Lodash.pick githubInfo requiredKeys in
  Nat.eqb (Object_keys_length keyInfos) (length requiredKeys)
  && negb (Lodash.some keyInfos Lodash.isEmpty).

(** *** Progress *)

Definition refreshGeneratingProgress
    (progress : GeneratingProgress.partial) (s : State) : State :=
  set_generatingProgress
    (GeneratingProgress.assign (generatingProgress s) progress) s.

Definition refreshPublishingProgress
    (progress : PublishingProgress.partial) (s : State) : State :=
  set_publishingProgress
    (PublishingProgress.assign (publishingProgress s) progress) s.

(** The default value of the parameter of each method. *)
Definition refreshGeneratingProgress_default : State → State :=
  refreshGeneratingProgress (GeneratingProgress.all initialGeneratingProgress).
Definition refreshPublishingProgress_default : State → State :=
  refreshPublishingProgress (PublishingProgress.all initialPublishProgress).

Definition handleLocalRepoStatusChanged
    (status : LocalRepoStatus.t) (s : State) : State :=
  let s1 := set_localRepoStatus status s in
  if bool_decide (status = LocalRepoStatus.Initializing) then
    refreshPublishingProgress
      {| PublishingProgress.p_phase := Some "Local repository initializing...";
         PublishingProgress.p_message := Some "";
         PublishingProgress.p_result := None |} s1
  else s1.

(** *** Credentials *)

(** [initGithubClient]; [name] is what [github.getRepositoryName()] answers
    when it is asked. *)
Definition initGithubClient (name : string) (s : State) : list Call * State :=
  match githubInfo s with
  | Some info =>
      if negb (isGithubInfoValid (githubInfo s)) then ([], s)
      else ([GithubInit info; GithubGetRepositoryName], set_repositoryName name s)
  | None => ([], s)
  end.

Definition saveGithubInfo (githubInfo_arg : JsObject) (name : string) (s : State)
    : Outcome Empty_set :=
  match githubInfo s with
  | Some current =>
      let githubInfo_ := Lodash.omit githubInfo_arg ["token"] in
      let merged := Object_assign current githubInfo_ in
      let s1 := set_githubInfo (Some merged) s in
      let saved := PluginSaveGithubInfo (Lodash.omit merged ["token"]) in
      let '(cs, s2) := initGithubClient name s1 in
      mkOutcome (saved :: cs) Return s2
  | None =>
      mkOutcome [ConsoleError "this.githubInfo.value is null"] Return s
  end.

(** *** init *)

Inductive InitTask :=
| InitAwaitOutputDir
| InitAwaitGithubToken
| InitAwaitGithubInfo (token : JsVal).

(** [x || ''] on a token. *)
Definition or_empty (v : JsVal) : string :=
  match v with
  | JString s => s
  | JUndefined | JNull => ""
  end.

Section init.
(** The constant [DEFAULT_GITHUB] of model/Publishing is not among the
    sources. *)
Variable DEFAULT_GITHUB : JsObject.

(** The constructor: [init()] runs up to its first [await]. *)
Definition init : Outcome InitTask :=
  mkOutcome [GeneratorGetOutputDir] (Await InitAwaitOutputDir) newService.

(** The output directory is known: the local repository is initialised,
    the listeners are registered, the token is asked for. *)
Definition init_outputDir (dir : string) (s : State) : Outcome InitTask :=
  let s1 := set_outputDir dir s in
  mkOutcome [GitInit (outputDir s1); JoplinGetGithubToken]
    (Await InitAwaitGithubToken) s1.

Definition init_githubToken (token : JsVal) (s : State) : Outcome InitTask :=
  mkOutcome [PluginGetGithubInfo] (Await (InitAwaitGithubInfo token)) s.

(** [{ ...DEFAULT_GITHUB, token: token || '', ...persisted }], then
    [initGithubClient()]. *)
Definition init_githubInfo (token : JsVal) (persisted : option JsObject)
    (name : string) (s : State) : Outcome InitTask :=
  let withToken :=
    Object_assign DEFAULT_GITHUB {[ "token" := JString (or_empty token) ]} in
  let info := Object_assign withToken (default ∅ persisted) in
  let '(cs, s1) := initGithubClient name (set_githubInfo (Some info) s) in
  mkOutcome cs Return s1.
End init.

(** *** generateSite *)

Inductive GenerateTask := AwaitGenerateSite.

(** The value a rejected [generator.generateSite()] carries, read as an
    [Error]. *)
Record Error := mkError { Error_message : string }.

(** Up to [await this.generator.generateSite()]; [warning] is whether
    [getLatestWarning(FORBIDDEN.GENERATE)] answers something truthy. *)
Definition generateSite (warning : bool) (s : State) : Outcome GenerateTask :=
  if isGenerating s then mkOutcome [] (Throw (EError "generating!")) s
  else if warning then
    mkOutcome [AppGetLatestWarning] (Throw (EError "generating!")) s
  else
    let s1 := set_isGenerating true s in
    let s2 := refreshGeneratingProgress_default s1 in
    mkOutcome [AppGetLatestWarning; GeneratorGenerateSite]
      (Await AwaitGenerateSite) s2.

(** From the settlement of the generator's promise to the end: the rest of
    [try], or [catch], then [finally]. *)
Definition generateSite_settled (r : list string + Error) (s : State)
    : Outcome GenerateTask :=
  let s1 :=
    match r with
    | inl files_ =>
        let s1 := set_files files_ s in
        let s2 := set_generatingProgress
          {| GeneratingProgress.result := Some GeneratingProgress.success;
             GeneratingProgress.message :=
               GeneratingProgress.message (generatingProgress s1) |} s1 in
        set_generatingProgress
          {| GeneratingProgress.result :=
               GeneratingProgress.result (generatingProgress s2);
             GeneratingProgress.message :=
               Number_toString (length files_) +:+ " files in totals" |} s2
    | inr error =>
        let s1 := set_generatingProgress
          {| GeneratingProgress.result := Some GeneratingProgress.fail;
             GeneratingProgress.message :=
               GeneratingProgress.message (generatingProgress s) |} s in
        set_generatingProgress
          {| GeneratingProgress.result :=
               GeneratingProgress.result (generatingProgress s1);
             GeneratingProgress.message := Error_message error |} s1
    end in
  mkOutcome [] Return (set_isGenerating false s1).

(** *** publish and stopPublishing *)

Definition stopPublishing (s : State) : Outcome Empty_set :=
  mkOutcome [GitTerminate] Return (set_isPublishing false s).

(** Where a publish attempt is suspended; [needToInit] is the local constant
    the rest of the attempt still reads. *)
Inductive PublishTask :=
| AwaitCreateRepository (needToInit : bool)
| AwaitDelay (needToInit : bool)
| AwaitPush.

Definition needToInit (needToCreateRepo : bool) (s : State) : bool :=
  bool_decide (PublishingProgress.result (publishingProgress s)
               = Some PublishResults.Fail)
  || needToCreateRepo
  || bool_decide (localRepoStatus s = LocalRepoStatus.Fail).

(** [finally { this.isPublishing.value = false }] *)
Definition publish_finally (s : State) : State := set_isPublishing false s.

(** The [catch] clause, then [finally]. *)
Definition publish_catch (error : JsError) (s : State) : Outcome PublishTask :=
  match instanceof_PublishError error with
  | Some e =>
      let message :=
        trim (default "" (PublishError.message e) +:+ " "
              +:+ PUBLISH_RESULT_MESSAGE (PublishError.type e)) in
      let p := publishingProgress s in
      let s1 := set_publishingProgress
        {| PublishingProgress.phase := PublishingProgress.phase p;
           PublishingProgress.message := message;
           PublishingProgress.result := Some (PublishError.type e) |} s in
      mkOutcome [] Return (publish_finally s1)
  | None => mkOutcome [] (Throw error) (publish_finally s)
  end.

(** [await new Promise((resolve) => setTimeout(resolve, 3000))] *)
Definition publish_delay (needToInit_ : bool) (s : State) : Outcome PublishTask :=
  mkOutcome [SetTimeout 3000] (Await (AwaitDelay needToInit_)) s.

(** From [this.isPublishing.value = true] to the first [await]. *)
Definition publish_try (needToCreateRepo needToInit_ : bool) (s : State)
    : Outcome PublishTask :=
  let s1 := set_isPublishing true s in
  if needToCreateRepo && isRepositoryMissing s1 then
    mkOutcome [GithubCreateRepository]
      (Await (AwaitCreateRepository needToInit_)) s1
  else publish_delay needToInit_ s1.

(** [publish(needToCreateRepo)] up to its first [await]. *)
Definition publish (needToCreateRepo : bool) (s : State) : Outcome PublishTask :=
  if isPublishing s then mkOutcome [] Return s
  else if negb (isGithubInfoValid (githubInfo s)) then
    mkOutcome [] (Throw (EError "invalid github info")) s
  else
    let needToInit_ := needToInit needToCreateRepo s in
    let s1 := if needToInit_ then refreshPublishingProgress_default s else s in
    publish_try needToCreateRepo needToInit_ s1.

(** [github.createRepository()] settled. *)
Definition publish_createRepository_settled
    (needToInit_ : bool) (r : option JsError) (s : State) : Outcome PublishTask :=
  match r with
  | None => publish_delay needToInit_ s
  | Some error => publish_catch error s
  end.

(** The timer fired: [this.git.push(this.files, needToInit)] is called. *)
Definition publish_delay_elapsed (needToInit_ : bool) (s : State)
    : Outcome PublishTask :=
  mkOutcome [GitPush (files s) needToInit_] (Await AwaitPush) s.

(** [git.push] settled. *)
Definition publish_push_settled (r : option JsError) (s : State)
    : Outcome PublishTask :=
  match r with
  | None =>
      let p := publishingProgress s in
      let s1 := set_publishingProgress
        {| PublishingProgress.phase := PublishingProgress.phase p;
           PublishingProgress.message := PublishingProgress.message p;
           PublishingProgress.result := Some PublishResults.Success |} s in
      mkOutcome [] Return (publish_finally s1)
  | Some error => publish_catch error s
  end.

(** Resuming a suspended attempt with the settlement [r] of what it awaits
    (a timer always resolves). *)
Definition publish_resume (task : PublishTask) (r : option JsError) (s : State)
    : Outcome PublishTask :=
  match task with
  | AwaitCreateRepository n => publish_createRepository_settled n r s
  | AwaitDelay n => publish_delay_elapsed n s
  | AwaitPush => publish_push_settled r s
  end.

(** ** The service in its environment *)

(** Everything that makes the service run a segment of code: a call from its
    user, the settlement of a promise it awaits, an event one of its
    collaborators emits.  Publish attempts are numbered in the order in which
    they suspended for the first time. *)
Inductive Event :=
| CallGenerateSite (warning : bool)
| CallPublish (needToCreateRepo : bool)
| CallStopPublishing
| CallSaveGithubInfo (githubInfo_arg : JsObject) (name : string)
| OutputDirResolved (dir : string)
| GithubTokenResolved (token : JsVal)
| GithubInfoResolved (persisted : option JsObject) (name : string)
| GenerateSiteSettled (r : list string + Error)
| CreateRepositorySettled (attempt : nat) (r : option JsError)
| TimerFired (attempt : nat)
| PushSettled (attempt : nat) (r : option JsError)
| GitProgress (progress : PublishingProgress.partial)
| GitMessage (text : string)
| GitLocalRepoStatusChanged (status : LocalRepoStatus.t)
| GithubInfoChanged
| PageGenerated (progress : GeneratingProgress.partial).

(** The service together with the suspended segments of its methods. *)
Record World := mkWorld {
  service : State;
  initTask : option InitTask;
  generateTask : option GenerateTask;
  publishTasks : list (option PublishTask) }.

(** What the service did in reaction to one event: the calls it made, what
    it threw at its caller (or rejected the caller's promise with), and how
    it is left. *)
Record Reaction := mkReaction {
  made : list Call;
  raised : option JsError;
  world : World }.

Definition suspended {K} (c : Completion K) : option K :=
  match c with
  | Await k => Some k
  | Return | Throw _ => None
  end.

Definition thrown {K} (c : Completion K) : option JsError :=
  match c with
  | Throw e => Some e
  | Return | Await _ => None
  end.

(** The listeners are registered once [init] is past its first [await]. *)
Definition listening (w : World) : bool :=
  match initTask w with
  | Some InitAwaitOutputDir => false
  | _ => true
  end.

Definition react_sync (o : Outcome Empty_set) (w : World) : Reaction :=
  mkReaction (calls o) (thrown (completion o))
    (mkWorld (state o) (initTask w) (generateTask w) (publishTasks w)).

Definition react_init (o : Outcome InitTask) (w : World) : Reaction :=
  mkReaction (calls o) (thrown (completion o))
    (mkWorld (state o) (suspended (completion o)) (generateTask w) (publishTasks w)).

Definition react_generate_call (o : Outcome GenerateTask) (w : World) : Reaction :=
  mkReaction (calls o) (thrown (completion o))
    (mkWorld (state o) (initTask w)
       (match suspended (completion o) with
        | Some k => Some k
        | None => generateTask w
        end)
       (publishTasks w)).

Definition react_generate_settled (o : Outcome GenerateTask) (w : World) : Reaction :=
  mkReaction (calls o) (thrown (completion o))
    (mkWorld (state o) (initTask w) (suspended (completion o)) (publishTasks w)).

Definition react_publish_call (o : Outcome PublishTask) (w : World) : Reaction :=
  mkReaction (calls o) (thrown (completion o))
    (mkWorld (state o) (initTask w) (generateTask w)
       (match suspended (completion o) with
        | Some k => publishTasks w ++ [Some k]
        | None => publishTasks w
        end)).

Definition react_publish_resumed (attempt : nat) (o : Outcome PublishTask)
    (w : World) : Reaction :=
  mkReaction (calls o) (thrown (completion o))
    (mkWorld (state o) (initTask w) (generateTask w)
       (<[attempt := suspended (completion o)]> (publishTasks w))).

Definition react_event (s : State) (w : World) : Reaction :=
  mkReaction [] None (mkWorld s (initTask w) (generateTask w) (publishTasks w)).

Section world.
Variable DEFAULT_GITHUB : JsObject.

(** The world the constructor leaves behind, and the call it made. *)
Definition world0 : World :=
  mkWorld (state init) (suspended (completion init)) None [].

(** One reaction; [None] when the event cannot happen in this world (a
    promise settles that nothing awaits). *)
Definition step (w : World) (ev : Event) : option Reaction :=
  let s := service w in
  match ev with
  | CallGenerateSite warning => Some (react_generate_call (generateSite warning s) w)
  | CallPublish b => Some (react_publish_call (publish b s) w)
  | CallStopPublishing => Some (react_sync (stopPublishing s) w)
  | CallSaveGithubInfo arg name => Some (react_sync (saveGithubInfo arg name s) w)
  | OutputDirResolved dir =>
      match initTask w with
      | Some InitAwaitOutputDir => Some (react_init (init_outputDir dir s) w)
      | _ => None
      end
  | GithubTokenResolved token =>
      match initTask w with
      | Some InitAwaitGithubToken => Some (react_init (init_githubToken token s) w)
      | _ => None
      end
  | GithubInfoResolved persisted name =>
      match initTask w with
      | Some (InitAwaitGithubInfo token) =>
          Some (react_init (init_githubInfo DEFAULT_GITHUB token persisted name s) w)
      | _ => None
      end
  | GenerateSiteSettled r =>
      match generateTask w with
      | Some AwaitGenerateSite =>
          Some (react_generate_settled (generateSite_settled r s) w)
      | None => None
      end
  | CreateRepositorySettled i r =>
      match publishTasks w !! i with
      | Some (Some (AwaitCreateRepository n)) =>
          Some (react_publish_resumed i
                  (publish_resume (AwaitCreateRepository n) r s) w)
      | _ => None
      end
  | TimerFired i =>
      match publishTasks w !! i with
      | Some (Some (AwaitDelay n)) =>
          Some (react_publish_resumed i (publish_resume (AwaitDelay n) None s) w)
      | _ => None
      end
  | PushSettled i r =>
      match publishTasks w !! i with
      | Some (Some AwaitPush) =>
          Some (react_publish_resumed i (publish_resume AwaitPush r s) w)
      | _ => None
      end
  | GitProgress progress =>
      Some (react_event
              (if listening w then refreshPublishingProgress progress s else s) w)
  | GitMessage text =>
      Some (react_event
              (if listening w then
                 refreshPublishingProgress
                   {| PublishingProgress.p_phase := None;
                      PublishingProgress.p_message := Some text;
                      PublishingProgress.p_result := None |} s
               else s) w)
  | GitLocalRepoStatusChanged status =>
      Some (react_event
              (if listening w then handleLocalRepoStatusChanged status s else s) w)
  | GithubInfoChanged =>
      Some (react_event
              (if listening w then refreshPublishingProgress_default s else s) w)
  | PageGenerated progress =>
      Some (react_event
              (if listening w then refreshGeneratingProgress progress s else s) w)
  end.

(** A run: the reactions to a sequence of events, oldest first. *)
Fixpoint run (w : World) (evs : list Event) : option (list Reaction) :=
  match evs with
  | [] => Some []
  | ev :: evs' =>
      match step w ev with
      | Some r =>
          match run (world r) evs' with
          | Some rs => Some (r :: rs)
          | None => None
          end
      | None => None
      end
  end.

(** The world at the end of a run. *)
Definition final (w : World) (rs : list Reaction) : World :=
  default w (world <$> last rs).

End world.

(** The file list of the latest successful generate among [evs], [base] when
    there is none. *)
Fixpoint lastGenerated (base : list string) (evs : list Event) : list string :=
  match evs with
  | [] => base
  | GenerateSiteSettled (inl fs) :: evs' => lastGenerated fs evs'
  | _ :: evs' => lastGenerated base evs'
  end.

(** ** utils: selfish *)

Module Selfish.

(** Function objects.  What distinguishes one from another is its identity:
    a function of the program has the identity it was created with; each
    call of [bind] makes a new bound function, stamped with the number of
    bound functions made before it. *)
Inductive Fn :=
| Plain (id : nat)
| Bound (stamp : nat) (targetFunction : Fn) (boundThis : nat).

#[global] Instance Fn_eq_dec : EqDecision Fn.
Proof. solve_decision. Defined.

(** Values a property can hold: [undefined], [null] or a string, a reference
    to an object, or a function. *)
Inductive Value :=
| Prim (v : JsVal)
| Obj (ref : nat)
| Fun (f : Fn).

#[global] Instance Value_eq_dec : EqDecision Value.
Proof. solve_decision. Defined.

(** [typeof value === 'function'] *)
Definition typeof_function (value : Value) : bool :=
  match value with
  | Fun _ => true
  | Prim _ | Obj _ => false
  end.

(** A property as [Reflect.get] and the proxy see it: a data property with
    its value, [locked] when it is an own property that is neither writable
    nor configurable (as on a frozen object); or an accessor property, named
    by its getter.  A property found along the prototype chain is not an own
    property of the target, hence never locked. *)
Inductive Property :=
| Data (value : Value) (locked : bool)
| Accessor (getter : nat).

(** The objects of the program with their properties, and the number of
    bound functions made so far. *)
Record Heap := mkHeap {
  objects : gmap nat (gmap string Property);
  bounds : nat }.

Definition property (h : Heap) (target : nat) (key : string) : option Property :=
  objects h !! target ≫= λ props, props !! key.

(** [value.bind(thisArg)] *)
Definition bind (value : Fn) (thisArg : nat) (h : Heap) : Fn * Heap :=
  (Bound (bounds h) value thisArg, mkHeap (objects h) (S (bounds h))).


(** [new WeakMap()] with functions as keys. *)
Definition WeakMap := list (Fn * Fn).

Definition WeakMap_find (m : WeakMap) (key : Fn) : option Fn :=
  snd <$> List.find (λ kv, bool_decide (kv.1 = key)) m.

Definition WeakMap_has (m : WeakMap) (key : Fn) : bool :=
  bool_decide (is_Some (WeakMap_find m key)).

Definition WeakMap_get (m : WeakMap) (key : Fn) : Value :=
  match WeakMap_find m key with
  | Some b => Fun b
  | None => Prim JUndefined
  end.

Definition WeakMap_set (m : WeakMap) (key value : Fn) : WeakMap :=
  (key, value) :: List.filter (λ kv, negb (bool_decide (kv.1 = key))) m.

(** The proxy [selfish] returns: the target it wraps and the cache its
    handler closes over. *)
Record Proxy := mkProxy {
  target : nat;
  cache : WeakMap }.

Definition selfish (target_ : nat) : Proxy := mkProxy target_ [].

(** What the program may do apart from what the handler does: read through
    the proxy, define or assign a property of any object or delete it (the
    target too; a locked property stays as it is), or bind some function
    itself. *)
Inductive Op :=
| Read (key : string)
| Define (ref : nat) (key : string) (prop : Property)
| Delete (ref : nat) (key : string)
| BindElsewhere (f : Fn) (thisArg : nat).

(** What the getters of the program do.  Called with a receiver, in the
    state of that moment, a getter performs operations, reads through the
    proxy among them, and then returns a value, or throws and has none. *)
Definition Getters := nat → nat → Proxy * Heap → list Op * option Value.

Definition define (h : Heap) (ref : nat) (key : string) (prop : Property) : Heap :=
  match property h ref key with
  | Some (Data _ true) => h
  | _ =>
      mkHeap (<[ref := <[key := prop]> (default ∅ (objects h !! ref))]> (objects h))
        (bounds h)
  end.

Definition deleteProperty (h : Heap) (ref : nat) (key : string) : Heap :=
  match property h ref key with
  | Some (Data _ true) => h
  | _ =>
      mkHeap (<[ref := delete key (default ∅ (objects h !! ref))]> (objects h))
        (bounds h)
  end.

(** How a property access on the proxy ends: with a value, with the
    TypeError of the proxy, or with what was thrown while the property was
    read (by a getter, or because the call stack ran out). *)
Inductive Access :=
| Normal (value : Value)
| TypeError
| Thrown.

Section reads.

(** A read through the proxy as a getter makes it, one call deeper. *)
Variable read : Proxy * Heap → string → Access * (Proxy * Heap).

Definition exec (ph : Proxy * Heap) (op : Op) : Proxy * Heap :=
  match op with
  | Read key => (read ph key).2
  | Define ref key prop => (ph.1, define ph.2 ref key prop)
  | Delete ref key => (ph.1, deleteProperty ph.2 ref key)
  | BindElsewhere f thisArg => (ph.1, (bind f thisArg ph.2).2)
  end.

(** [Reflect.get(target, key)]: the value of a data property, what the
    getter of an accessor property returns when called with the target as
    receiver, [undefined] for a property that is missing; no value when the
    getter throws. *)
Definition Reflect_get (G : Getters) (ph : Proxy * Heap) (target : nat)
    (key : string) : option Value * (Proxy * Heap) :=
  match property ph.2 target key with
  | Some (Data value _) => (Some value, ph)
  | Some (Accessor getter) =>
      let '(ops, returned) := G getter target ph in
      (returned, foldl exec ph ops)
  | None => (Some (Prim JUndefined), ph)
  end.

(** The [get] trap of the handler: the value it returns (none when
    [Reflect.get] throws), the proxy and the heap afterwards. *)
Definition get (G : Getters) (ph : Proxy * Heap) (key : string)
    : option Value * (Proxy * Heap) :=
  let '(value, (p, h)) := Reflect_get G ph (target ph.1) key in
  match value with
  | Some (Fun f) =>
      let '(p1, h1) :=
        if negb (WeakMap_has (cache p) f) then
          let '(b, h') := bind f (target p) h in
          (mkProxy (target p) (WeakMap_set (cache p) f b), h')
        else (p, h) in
      (Some (WeakMap_get (cache p1) f), (p1, h1))
  | _ => (value, (p, h))
  end.

(** A property access on the proxy, [new Proxy(target, { get })]: the trap
    is called, and its result is what the access yields unless the target
    has the property as a locked data property with another value; the
    access then throws a TypeError. *)
Definition Proxy_get_with (G : Getters) (ph : Proxy * Heap) (key : string)
    : Access * (Proxy * Heap) :=
  let '(trapResult, (p1, h1)) := get G ph key in
  match trapResult with
  | Some result =>
      match property h1 (target p1) key with
      | Some (Data value true) =>
          (if bool_decide (result = value) then Normal result else TypeError,
           (p1, h1))
      | _ => (Normal result, (p1, h1))
      end
  | None => (Thrown, (p1, h1))
  end.

End reads.

(** The call stack has run out: a read throws and changes nothing. *)
Definition stackExhausted (ph : Proxy * Heap) (key : string)
    : Access * (Proxy * Heap) :=
  (Thrown, ph).

(** A property access on the proxy when [depth] more reads can be nested in
    it, by getters that read through the proxy themselves. *)
Fixpoint Proxy_get (depth : nat) (G : Getters) (ph : Proxy * Heap)
    (key : string) : Access * (Proxy * Heap) :=
  Proxy_get_with
    (match depth with
     | O => stackExhausted
     | S d => Proxy_get d G
     end) G ph key.

(** The reads the getters make during a read at [depth]. *)
Definition nested (depth : nat) (G : Getters)
    : Proxy * Heap → string → Access * (Proxy * Heap) :=
  match depth with
  | O => stackExhausted
  | S d => Proxy_get d G
  end.

Definition execs (depth : nat) (G : Getters) (ph : Proxy * Heap)
    (ops : list Op) : Proxy * Heap :=
  foldl (exec (Proxy_get depth G)) ph ops.

(** Every entry of the cache maps a function to that function bound to the
    target. *)
Definition cache_bound (p : Proxy) : Prop :=
  ∀ f b, WeakMap_find (cache p) f = Some b → ∃ n, b = Bound n f (target p).

(** The cache is as the handler builds it: one entry per function, each
    mapping a function to that function bound to the target. *)
Definition sound (p : Proxy) : Prop :=
  cache_bound p ∧ NoDup (cache p).*1.

(** From one state to a later one the proxy has the same target and no
    entry of the cache was replaced or removed. *)
Definition grows (ph ph' : Proxy * Heap) : Prop :=
  target ph'.1 = target ph.1
  ∧ ∀ g b, WeakMap_find (cache ph.1) g = Some b →
           WeakMap_find (cache ph'.1) g = Some b.

Definition keeps (read : Proxy * Heap → string → Access * (Proxy * Heap)) : Prop :=
  ∀ ph key, sound ph.1 → sound (read ph key).2.1 ∧ grows ph (read ph key).2.


End Selfish.

(** ** Sample runs *)

(** A run in which the credentials become invalid while a publish attempt is
    in its grace window. *)
Definition sampleGithubInfo : JsObject :=
  <["userName" := JString "a"]> {["email" := JString "b@x.com"]}.

Definition run_invalid_while_publishing : list Event :=
  [ OutputDirResolved "/out";
    GithubTokenResolved (JString "t");
    GithubInfoResolved (Some sampleGithubInfo) "a.github.io";
    CallPublish false;
    CallSaveGithubInfo {["userName" := JString ""]} "a.github.io";
    CallPublish false ].

(** The scenario of the spec: the local repository failed, publish(false). *)
Definition failedRepoService : State :=
  set_localRepoStatus LocalRepoStatus.Fail
    (set_publishingProgress
       {| PublishingProgress.phase := "Pushing";
          PublishingProgress.message := "50%";
          PublishingProgress.result := None |}
       (set_githubInfo
          (Some (<["token" := JString "t"]> sampleGithubInfo)) newService)).

(** The service starts, a site of two files is generated, a publish attempt
    starts, a second generation fails during the grace window, the timer
    fires. *)
Definition run_generate_then_publish : list Event :=
  [ OutputDirResolved "/out";
    GithubTokenResolved (JString "t");
    GithubInfoResolved (Some sampleGithubInfo) "a.github.io";
    CallGenerateSite false;
    GenerateSiteSettled (inl ["index.html"; "about.html"]);
    CallPublish false;
    CallGenerateSite false;
    GenerateSiteSettled (inr (mkError "disk full"));
    TimerFired 0 ].

(** The service starts, a publish attempt starts, stopPublishing is called
    during the grace window, the timer fires. *)
Definition run_stop_in_grace_window : list Event :=
  [ OutputDirResolved "/out";
    GithubTokenResolved (JString "t");
    GithubInfoResolved (Some sampleGithubInfo) "a.github.io";
    CallPublish false;
    CallStopPublishing;
    TimerFired 0 ].

(** As above, but publish is called again right after stopPublishing. *)
Definition run_publish_after_stop : list Event :=
  [ OutputDirResolved "/out";
    GithubTokenResolved (JString "t");
    GithubInfoResolved (Some sampleGithubInfo) "a.github.io";
    CallPublish false;
    CallStopPublishing;
    CallPublish false;
    TimerFired 1 ].

(** A world in which the first publish attempt is in its grace window. *)
Definition graceWindowWorld : World :=
  mkWorld
    (set_isPublishing true
       (set_githubInfo (Some (<["token" := JString "t"]> sampleGithubInfo))
          newService))
    None None [Some (AwaitDelay false)].


(** ** Invariants of runs *)

(** isGenerating tells whether a call of the generator is unsettled. *)
Definition generating_tracked (w : World) : Prop :=
  isGenerating (service w)
  = match generateTask w with Some _ => true | None => false end.

(** A true isPublishing is backed by a suspended publish attempt. *)
Definition publishing_backed (w : World) : Prop :=
  isPublishing (service w) = true →
  ∃ i k, publishTasks w !! i = Some (Some k).

(** As long as [init] has not finished there are no credentials and no
    publish attempt was ever started. *)
Definition init_pending (w : World) : Prop :=
  is_Some (initTask w) →
  githubInfo (service w) = None
  ∧ isPublishing (service w) = false
  ∧ publishTasks w = [].

(** While isPublishing is true the stored record has the three keys the
    validity asks for. *)
Definition publishing_has_keys (w : World) : Prop :=
  isPublishing (service w) = true →
  ∃ o, githubInfo (service w) = Some o
       ∧ ∀ k, k ∈ requiredKeys → is_Some (o !! k).

(** The world before the [i]-th reaction of a run that started in [w]. *)
Definition before (w : World) (rs : list Reaction) (i : nat) : World :=
  final w (take i rs).

(** ** More sample runs *)

(** generateSite is called a second time while the first call of the
    generator is unsettled; then the generator resolves. *)
Definition run_generate_twice : list Event :=
  [ OutputDirResolved "/out";
    CallGenerateSite false;
    CallGenerateSite false;
    GenerateSiteSettled (inl ["index.html"]);
    CallGenerateSite false ].

(** The service starts with a missing repository, publish(true) creates it,
    waits, pushes, and the push resolves. *)
Definition run_create_then_push : list Event :=
  [ OutputDirResolved "/out";
    GitLocalRepoStatusChanged LocalRepoStatus.MissingRepository;
    GithubTokenResolved (JString "t");
    GithubInfoResolved (Some sampleGithubInfo) "a.github.io";
    CallPublish true;
    CreateRepositorySettled 0 None;
    TimerFired 0;
    PushSettled 0 None ].

(** A world in which the first publish attempt awaits the creation of the
    repository. *)
Definition creatingRepoWorld : World :=
  mkWorld
    (set_isPublishing true
       (set_localRepoStatus LocalRepoStatus.MissingRepository
          (set_githubInfo (Some (<["token" := JString "t"]> sampleGithubInfo))
             newService)))
    None None [Some (AwaitCreateRepository true)].

(** The service has started; the last publish attempt failed. *)
Definition failedPublishWorld : World :=
  mkWorld
    (set_publishingProgress
       {| PublishingProgress.phase := "Pushing";
          PublishingProgress.message := "network down";
          PublishingProgress.result := Some PublishResults.Fail |}
       (set_githubInfo (Some (<["token" := JString "t"]> sampleGithubInfo))
          newService))
    None None [None].

(** From [failedPublishWorld]: the stored user name is changed, a site is
    generated, a second publish attempt starts, a token is handed to
    saveGithubInfo during its grace window, the attempt pushes. *)
Definition run_save_and_publish : list Event :=
  [ CallSaveGithubInfo
      (<["token" := JString "stolen"]> {["userName" := JString "z"]}) "z.github.io";
    CallGenerateSite false;
    GenerateSiteSettled (inl ["index.html"]);
    CallPublish false;
    CallSaveGithubInfo {["token" := JNull]} "z.github.io";
    TimerFired 1;
    PushSettled 1 None ].

(** The service starts with a token in the secret store and nothing
    persisted, then a generation is asked for. *)
Definition run_no_persisted_info : list Event :=
  [ OutputDirResolved "/out";
    GithubTokenResolved (JString "t");
    GithubInfoResolved None "";
    CallGenerateSite false ].

(** Calls made before the credentials are loaded. *)
Definition run_before_init : list Event :=
  [ CallPublish false;
    OutputDirResolved "/out";
    CallSaveGithubInfo {["userName" := JString "z"]} "z.github.io";
    GithubTokenResolved (JString "t");
    CallPublish true ].





(** A target with an accessor property [current] besides its methods. *)
Definition accessorHeap : Selfish.Heap :=
  Selfish.mkHeap
    {[ 0 := <["current" := Selfish.Accessor 0]>
              (<["start" := Selfish.Data (Selfish.Fun (Selfish.Plain 1)) false]>
                 {["stop" := Selfish.Data (Selfish.Fun (Selfish.Plain 2)) false]}) ]}
    0.

(** Its getter reads [stop] through the proxy, sets a name on the target
    and returns the function [start] holds. *)
Definition sampleGetters : Selfish.Getters :=
  λ _ receiver _,
    ([Selfish.Read "stop";
      Selfish.Define receiver "name" (Selfish.Data (Selfish.Prim (JString "git")) false)],
     Some (Selfish.Fun (Selfish.Plain 1))).

(** A getter that throws. *)
Definition throwingGetters : Selfish.Getters := λ _ _ _, ([], None).
(** * Properties *)

(** ** Facts about the helpers *)

Section helpers.
Implicit Types (o : JsObject) (ks : list string) (k : string) (v : JsVal).

Lemma isEmpty_isUnset v : Lodash.isEmpty v = isUnset v.
Proof.
  destruct v as [| |s]; try reflexivity.
  unfold isUnset; cbn. destruct s; reflexivity.
Qed.

Lemma isUnset_false v :
  isUnset v = false ↔ v ≠ JUndefined ∧ v ≠ JNull ∧ v ≠ JString "".
Proof.
  destruct v as [| |s].
  - split; [discriminate | intros (Hu & _); congruence].
  - split; [discriminate | intros (_ & Hn & _); congruence].
  - unfold isUnset; cbn. rewrite bool_decide_eq_false. naive_solver.
Qed.

Lemma basePick_cons o p ks :
  Lodash.basePick o (p :: ks) =
  match o !! p with
  | Some v => <[p := v]> (Lodash.basePick o ks)
  | None => Lodash.basePick o ks
  end.
Proof. reflexivity. Qed.

Lemma omit_cons o p ks :
  Lodash.omit o (p :: ks) = delete p (Lodash.omit o ks).
Proof. reflexivity. Qed.

Lemma lookup_basePick o ks k :
  Lodash.basePick o ks !! k = if decide (k ∈ ks) then o !! k else None.
Proof.
  induction ks as [|p ks IH].
  - cbn. rewrite lookup_empty. case_decide as H; [by apply elem_of_nil in H | done].
  - rewrite basePick_cons. destruct (o !! p) as [v|] eqn:Hp.
    + destruct (decide (p = k)) as [->|Hk].
      * rewrite lookup_insert_eq, decide_True by left. by rewrite Hp.
      * rewrite lookup_insert_ne, IH by done.
        repeat case_decide; try done; exfalso; set_solver.
    + rewrite IH. repeat case_decide; try done.
      * exfalso. set_solver.
      * assert (k = p) as -> by set_solver. by rewrite Hp.
Qed.

Lemma lookup_omit o ks k :
  Lodash.omit o ks !! k = if decide (k ∈ ks) then None else o !! k.
Proof.
  induction ks as [|p ks IH].
  - cbn. case_decide as H; [by apply elem_of_nil in H | done].
  - rewrite omit_cons. destruct (decide (p = k)) as [->|Hk].
    + rewrite lookup_delete_eq, decide_True by left. done.
    + rewrite lookup_delete_ne, IH by done.
      repeat case_decide; try done; exfalso; set_solver.
Qed.

Lemma lookup_Object_assign o1 o2 k :
  Object_assign o1 o2 !! k =
  match o2 !! k with Some v => Some v | None => o1 !! k end.
Proof.
  unfold Object_assign. destruct (o2 !! k) as [v|] eqn:H2.
  - by apply lookup_union_Some_l.
  - by rewrite lookup_union_r.
Qed.

Lemma some_true o (p : JsVal → bool) :
  Lodash.some o p = true ↔ ∃ k v, o !! k = Some v ∧ p v = true.
Proof.
  unfold Lodash.some. rewrite existsb_exists. split.
  - intros [[k v] [Hin Hp]]. exists k, v. split; [|done].
    apply elem_of_map_to_list. by apply list_elem_of_In.
  - intros (k & v & Hl & Hp). exists (k, v). split; [|done].
    apply list_elem_of_In. by apply elem_of_map_to_list.
Qed.

Lemma some_false o (p : JsVal → bool) :
  Lodash.some o p = false ↔ ∀ k v, o !! k = Some v → p v = false.
Proof.
  rewrite <- not_true_iff_false, some_true. split.
  - intros Hn k v Hl. destruct (p v) eqn:E; [|done]. exfalso. eauto.
  - intros Ha (k & v & Hl & Hp). rewrite (Ha _ _ Hl) in Hp. done.
Qed.

(** The picked object has as many keys as there are requested keys present. *)
Lemma size_basePick o ks :
  NoDup ks →
  size (Lodash.basePick o ks) = length (filter (λ k, is_Some (o !! k)) ks).
Proof.
  induction 1 as [|p ks Hp Hnd IH].
  - apply map_size_empty.
  - rewrite basePick_cons. destruct (o !! p) as [v|] eqn:E.
    + rewrite filter_cons_True by (rewrite E; eauto). cbn. rewrite <- IH.
      apply map_size_insert_None. rewrite lookup_basePick.
      by rewrite decide_False.
    + rewrite filter_cons_False by (rewrite E; intros [? ?]; done). done.
Qed.

Lemma size_basePick_full o ks :
  NoDup ks →
  size (Lodash.basePick o ks) = length ks ↔ ∀ k, k ∈ ks → is_Some (o !! k).
Proof.
  intros Hnd. rewrite size_basePick by done. clear Hnd.
  induction ks as [|p ks IH].
  - split; [intros _ k Hk; by apply elem_of_nil in Hk | done].
  - destruct (decide (is_Some (o !! p))) as [Hs|Hs].
    + rewrite filter_cons_True by done. cbn. split.
      * intros Hl k Hk. apply elem_of_cons in Hk as [->|Hk]; [done|].
        apply IH; [lia | done].
      * intros Ha. f_equal. apply IH. intros k Hk. apply Ha. by right.
    + rewrite filter_cons_False by done. split.
      * intros Hl. cbn in Hl.
        pose proof (length_filter (λ k, is_Some (o !! k)) ks). lia.
      * intros Ha. exfalso. apply Hs, Ha. by left.
Qed.

End helpers.

(** ** trim *)

Section trim_facts.
Local Open Scope list_scope.

Section strip.
Variable ws : list (list ascii).
Hypothesis ws_nonempty : ∀ w, w ∈ ws → w ≠ [].

Lemma onlyOf_app (a b : list ascii) : onlyOf ws a → onlyOf ws b → onlyOf ws (a ++ b).
Proof.
  induction 1 as [|w l Hw Hl IH]; intros Hb; [done|].
  rewrite <- (assoc_L (++)). constructor; [done|]. by apply IH.
Qed.

Lemma isPrefix_spec (w l : list ascii) :
  isPrefix w l = true ↔ ∃ rest, l = w ++ rest.
Proof.
  revert l. induction w as [|a w IH]; intros l; cbn.
  - split; [eauto|done].
  - destruct l as [|b l].
    + split; [done|]. by intros [rest ?].
    + rewrite andb_true_iff, bool_decide_eq_true, IH. split.
      * intros [-> [rest ->]]. eauto.
      * intros [rest [= -> ->]]. eauto.
Qed.

Lemma stripOne_Some (l rest : list ascii) :
  stripOne ws l = Some rest → ∃ w, w ∈ ws ∧ l = w ++ rest.
Proof.
  unfold stripOne. destruct (List.find _ ws) as [w|] eqn:E; [|done].
  intros [= <-]. apply find_some in E as [Hin Hp].
  apply isPrefix_spec in Hp as [rest ->]. exists w.
  split; [by apply list_elem_of_In|]. by rewrite drop_app_length.
Qed.

Lemma stripOne_None (l : list ascii) :
  stripOne ws l = None → ¬ ∃ w rest, w ∈ ws ∧ l = w ++ rest.
Proof.
  unfold stripOne. destruct (List.find _ ws) as [w|] eqn:E; [done|].
  intros _ (w & rest & Hw & ->).
  apply list_elem_of_In in Hw. apply (find_none _ _ E w) in Hw as Hf.
  assert (isPrefix w (w ++ rest) = true) by (apply isPrefix_spec; eauto).
  congruence.
Qed.

Lemma stripAll_spec (rounds : nat) (l : list ascii) :
  (length l ≤ rounds)%nat →
  ∃ front, l = front ++ stripAll rounds ws l
           ∧ onlyOf ws front
           ∧ ¬ ∃ w rest, w ∈ ws ∧ stripAll rounds ws l = w ++ rest.
Proof.
  revert l. induction rounds as [|n IH]; intros l Hl.
  - destruct l; [|cbn in Hl; lia]. exists []. cbn.
    split; [done|]. split; [constructor|].
    intros (w & rest & Hw & Hn). symmetry in Hn.
    apply app_eq_nil in Hn as [-> _]. by apply (ws_nonempty []).
  - cbn. destruct (stripOne ws l) as [rest|] eqn:E.
    + destruct (stripOne_Some _ _ E) as (w & Hw & ->).
      destruct (IH rest) as (front & Hf & Ho & Hn).
      { rewrite length_app in Hl. pose proof (ws_nonempty w Hw).
        destruct w; [done|]. cbn in Hl. lia. }
      exists (w ++ front). split; [by rewrite <- (assoc_L (++)), <- Hf|].
      split; [by constructor | done].
    + exists []. split; [done|]. split; [constructor|].
      by apply stripOne_None.
Qed.

Lemma trimStartBytes_spec (l : list ascii) :
  ∃ front, l = front ++ trimStartBytes ws l
           ∧ onlyOf ws front
           ∧ ¬ ∃ w rest, w ∈ ws ∧ trimStartBytes ws l = w ++ rest.
Proof. by apply stripAll_spec. Qed.

End strip.

Lemma onlyOf_reverse (ws : list (list ascii)) (l : list ascii) :
  onlyOf (reverse <$> ws) l → onlyOf ws (reverse l).
Proof.
  induction 1 as [|w l Hw Hl IH]; [constructor|].
  rewrite reverse_app. apply onlyOf_app; [done|].
  apply list_elem_of_fmap in Hw as (w' & -> & Hw').
  rewrite reverse_involutive, <- (app_nil_r w'). constructor; [done|constructor].
Qed.

Lemma trimEndBytes_spec (ws : list (list ascii)) (l : list ascii) :
  (∀ w, w ∈ ws → w ≠ []) →
  ∃ back, l = trimEndBytes ws l ++ back
          ∧ onlyOf ws back
          ∧ ¬ ∃ w front, w ∈ ws ∧ trimEndBytes ws l = front ++ w.
Proof.
  intros Hne. unfold trimEndBytes.
  destruct (trimStartBytes_spec (reverse <$> ws)) with (l := reverse l)
    as (front & Hf & Ho & Hn).
  { intros w Hw ->. apply list_elem_of_fmap in Hw as (w' & Hr & Hw').
    apply (f_equal reverse) in Hr. rewrite reverse_involutive in Hr.
    cbn in Hr. subst w'. by apply (Hne []). }
  exists (reverse front). split.
  - rewrite <- reverse_app, <- Hf. by rewrite reverse_involutive.
  - split; [by apply onlyOf_reverse|].
    intros (w & fr & Hw & He). apply Hn. exists (reverse w), (reverse fr).
    split; [apply list_elem_of_fmap; eauto|].
    rewrite <- reverse_app, <- He. by rewrite reverse_involutive.
Qed.

Lemma string_of_list_app (a b : list ascii) :
  String.string_of_list_ascii (a ++ b) = String.string_of_list_ascii a +:+ String.string_of_list_ascii b.
Proof. induction a as [|x a IH]; [done|]. cbn. by rewrite IH. Qed.

Lemma list_of_string_app (a b : string) :
  String.list_ascii_of_string (a +:+ b) = String.list_ascii_of_string a ++ String.list_ascii_of_string b.
Proof.
  induction a as [|x a IH]; [done|].
  change (String x a +:+ b) with (String x (a +:+ b)). cbn. by rewrite IH.
Qed.

Lemma whiteSpaceBytes_elem (w : list ascii) :
  w ∈ whiteSpaceBytes → String.string_of_list_ascii w ∈ whiteSpace.
Proof.
  unfold whiteSpaceBytes. intros Hw.
  apply list_elem_of_fmap in Hw as (s & -> & Hs).
  by rewrite String.string_of_list_ascii_of_string.
Qed.

Lemma whiteSpace_elem (w : string) :
  w ∈ whiteSpace → String.list_ascii_of_string w ∈ whiteSpaceBytes.
Proof. intros Hw. apply list_elem_of_fmap. eauto. Qed.

Lemma whiteSpaceBytes_nonempty (w : list ascii) : w ∈ whiteSpaceBytes → w ≠ [].
Proof.
  intros Hw ->. revert Hw. apply (bool_decide_unpack _). vm_compute. exact I.
Qed.

Lemma onlyOf_WhiteSpaceOnly (l : list ascii) :
  onlyOf whiteSpaceBytes l → WhiteSpaceOnly (String.string_of_list_ascii l).
Proof.
  induction 1 as [|w l Hw Hl IH]; [constructor|].
  rewrite string_of_list_app. constructor; [|done].
  by apply whiteSpaceBytes_elem.
Qed.

(** What [trim] returns is the text without a front and a back that consist
    of white space only, and has white space at neither end. *)
Lemma trim_spec (s : string) :
  ∃ front back,
    s = front +:+ trim s +:+ back
    ∧ WhiteSpaceOnly front ∧ WhiteSpaceOnly back
    ∧ ¬ startsWithWhiteSpace (trim s)
    ∧ ¬ endsWithWhiteSpace (trim s).
Proof.
  unfold trim, trimEnd, trimStart. rewrite String.list_ascii_of_string_of_list_ascii.
  remember (String.list_ascii_of_string s) as l eqn:El.
  destruct (trimStartBytes_spec whiteSpaceBytes whiteSpaceBytes_nonempty l)
    as (front & Hf & Hof & Hnf).
  remember (trimStartBytes whiteSpaceBytes l) as t eqn:Et. clear Et.
  destruct (trimEndBytes_spec whiteSpaceBytes t whiteSpaceBytes_nonempty)
    as (back & Hb & Hob & Hnb).
  remember (trimEndBytes whiteSpaceBytes t) as m eqn:Em. clear Em.
  exists (String.string_of_list_ascii front), (String.string_of_list_ascii back).
  split; [|split; [|split; [|split]]].
  - rewrite <- !string_of_list_app, <- Hb, <- Hf, El.
    by rewrite String.string_of_list_ascii_of_string.
  - by apply onlyOf_WhiteSpaceOnly.
  - by apply onlyOf_WhiteSpaceOnly.
  - intros (w & rest & Hw & He). apply Hnf.
    exists (String.list_ascii_of_string w), (String.list_ascii_of_string rest ++ back).
    split; [by apply whiteSpace_elem|].
    rewrite Hb, (assoc_L (++)), <- list_of_string_app, <- He.
    by rewrite String.list_ascii_of_string_of_list_ascii.
  - intros (w & fr & Hw & He). apply Hnb.
    exists (String.list_ascii_of_string w), (String.list_ascii_of_string fr).
    split; [by apply whiteSpace_elem|].
    rewrite <- list_of_string_app, <- He.
    by rewrite String.list_ascii_of_string_of_list_ascii.
Qed.

End trim_facts.

Example trim_example : trim "  a b	 " = "a b".
Proof. vm_compute. reflexivity. Qed.

(** IDEOGRAPHIC SPACE in front, LINE SEPARATOR and TAB behind. *)
Example trim_unicode :
  trim (bytes [227; 128; 128] +:+ "a b" +:+ bytes [226; 128; 168; 9]) = "a b".
Proof. vm_compute. reflexivity. Qed.

(** ** Credential validity *)

Lemma NoDup_requiredKeys : NoDup requiredKeys.
Proof. apply (bool_decide_unpack _). vm_compute. exact I. Qed.

Lemma isGithubInfoValid_null : isGithubInfoValid None = false.
Proof. reflexivity. Qed.

Lemma isGithubInfoValid_Some (o : JsObject) :
  isGithubInfoValid (Some o) = true ↔
  ∀ k, k ∈ requiredKeys → ∃ v, o !! k = Some v ∧ isUnset v = false.
Proof.
  unfold isGithubInfoValid, Object_keys_length. cbn [Lodash.pick].
  rewrite andb_true_iff, Nat.eqb_eq, negb_true_iff, some_false.
  rewrite (size_basePick_full _ _ NoDup_requiredKeys). split.
  - intros [Hall Hne] k Hk. destruct (Hall k Hk) as [v Hv].
    exists v. split; [done|]. rewrite <- isEmpty_isUnset.
    apply (Hne k). rewrite lookup_basePick, decide_True by done. done.
  - intros H. split.
    + intros k Hk. destruct (H k Hk) as (v & Hv & _). eauto.
    + intros k v. rewrite lookup_basePick. case_decide as Hk; [|done].
      intros Hv. destruct (H k Hk) as (v' & Hv' & Hu).
      rewrite isEmpty_isUnset. congruence.
Qed.

(** The scenario of the spec: an empty token makes the record invalid. *)
Example isGithubInfoValid_empty_token :
  isGithubInfoValid
    (Some (<["userName" := JString "a"]>
             (<["email" := JString "b@x.com"]> {["token" := JString ""]})))
  = false.
Proof. vm_compute. reflexivity. Qed.

Example isGithubInfoValid_complete :
  isGithubInfoValid
    (Some (<["userName" := JString "a"]>
             (<["email" := JString "b@x.com"]> {["token" := JString "t"]})))
  = true.
Proof. vm_compute. reflexivity. Qed.

(** The derived validity is true exactly when the record is not null and
    each of userName, email and token is present with a value that is
    neither null, nor undefined, nor the empty string.  A record that is
    null or lacks one of the three keys is invalid, and publish called
    with it when isPublishing is false throws, having made no call and
    changed no field. *)
Lemma isGithubInfoValid_iff (info : option JsObject) :
  (isGithubInfoValid info = true ↔
   ∃ o, info = Some o ∧
     ∀ k, k ∈ ["userName"; "email"; "token"] →
       ∃ v, o !! k = Some v ∧ v ≠ JUndefined ∧ v ≠ JNull ∧ v ≠ JString "")
  ∧ (∀ (s : State) (needToCreateRepo : bool),
       githubInfo s = info →
       (info = None ∨
        ∃ o k, info = Some o ∧ k ∈ ["userName"; "email"; "token"] ∧ o !! k = None) →
       isGithubInfoValid info = false
       ∧ (isPublishing s = false →
          publish needToCreateRepo s
          = mkOutcome [] (Throw (EError "invalid github info")) s)).
Proof.
  assert (Hiff : isGithubInfoValid info = true ↔
    ∃ o, info = Some o ∧
      ∀ k, k ∈ ["userName"; "email"; "token"] →
        ∃ v, o !! k = Some v ∧ v ≠ JUndefined ∧ v ≠ JNull ∧ v ≠ JString "").
  { destruct info as [o|].
    - rewrite isGithubInfoValid_Some. split.
      + intros H. exists o. split; [done|]. intros k Hk.
        destruct (H k Hk) as (v & Hv & Hu). exists v. split; [done|].
        by apply isUnset_false.
      + intros (o' & [= <-] & H) k Hk.
        destruct (H k Hk) as (v & Hv & Hu). exists v. split; [done|].
        by apply isUnset_false.
    - rewrite isGithubInfoValid_null. split; [done|]. by intros (o & ? & _). }
  split; [exact Hiff|].
  intros s b Hs Hbad.
  assert (Hinv : isGithubInfoValid info = false).
  { apply not_true_iff_false. rewrite Hiff. intros (o & -> & H).
    destruct Hbad as [?|(o' & k & [= <-] & Hk & Hnone)]; [done|].
    destruct (H k Hk) as (v & Hv & _). congruence. }
  split; [done|]. intros Hp. unfold publish. by rewrite Hp, Hs, Hinv.
Qed.

(** A record with every key present can still become invalid while a
    publish is in flight, here by an empty userName; publish then returns
    at its first guard without throwing. *)
Example publish_unset_field_while_publishing :
  ∃ rs r,
    run ∅ (world0) run_invalid_while_publishing = Some rs
    ∧ last rs = Some r
    ∧ isGithubInfoValid (githubInfo (service (world r))) = false
    ∧ isPublishing (service (world r)) = true
    ∧ raised r = None
    ∧ made r = [].
Proof.
  eexists _, _. split; [vm_compute; reflexivity|].
  split; [reflexivity|]. vm_compute. done.
Qed.

(** ** publish: the re-entrancy guard *)

(** C2.  A call of publish made while isPublishing is true returns at once
    without an error, leaves every field of the service as it was (files,
    both progress records, localRepoStatus, the credentials, the flags) and
    calls no collaborator; no attempt is added to the suspended ones. *)
Theorem publish_while_publishing
    (DEFAULT_GITHUB : JsObject) (w : World) (needToCreateRepo : bool) :
  isPublishing (service w) = true →
  publish needToCreateRepo (service w) = mkOutcome [] Return (service w)
  ∧ step DEFAULT_GITHUB w (CallPublish needToCreateRepo)
    = Some (mkReaction [] None w).
Proof.
  intros Hp. assert (Ho : publish needToCreateRepo (service w)
                          = mkOutcome [] Return (service w)).
  { unfold publish. by rewrite Hp. }
  split; [exact Ho|]. cbn [step]. rewrite Ho.
  destruct w as [s it gt pts]. reflexivity.
Qed.

Lemma publish_while_publishing_witness :
  publish true (set_isPublishing true newService)
  = mkOutcome [] Return (set_isPublishing true newService)
  ∧ step ∅ (mkWorld (set_isPublishing true newService) None None [Some (AwaitDelay false)])
      (CallPublish true)
    = Some (mkReaction [] None
              (mkWorld (set_isPublishing true newService) None None
                 [Some (AwaitDelay false)])).
Proof.
  apply (publish_while_publishing ∅
           (mkWorld (set_isPublishing true newService) None None
              [Some (AwaitDelay false)]) true).
  reflexivity.
Defined.

(** ** publish: the decision to initialise again *)

Lemma needToInit_true (needToCreateRepo : bool) (s : State) :
  needToInit needToCreateRepo s = true ↔
  PublishingProgress.result (publishingProgress s) = Some PublishResults.Fail
  ∨ needToCreateRepo = true
  ∨ localRepoStatus s = LocalRepoStatus.Fail.
Proof.
  unfold needToInit.
  rewrite !orb_true_iff, !bool_decide_eq_true. tauto.
Qed.

(** C3.  For a call of publish that passes both guards, the flag is the
    disjunction of: the previous result is Fail, the caller asked for the
    repository to be created, the local repository status is Fail.  When it
    holds the publishing progress is put back to its initial value before
    isPublishing is set and before any call is made; the attempt carries the
    flag through both of its suspensions and hands it to push as second
    argument. *)
Theorem publish_needToInit (s : State) (needToCreateRepo : bool) :
  isPublishing s = false →
  isGithubInfoValid (githubInfo s) = true →
  ∃ flag : bool,
    (flag = true ↔
       PublishingProgress.result (publishingProgress s) = Some PublishResults.Fail
       ∨ needToCreateRepo = true
       ∨ localRepoStatus s = LocalRepoStatus.Fail)
    ∧ publish needToCreateRepo s
      = publish_try needToCreateRepo flag
          (if flag then set_publishingProgress initialPublishProgress s else s)
    ∧ (flag = true →
       publishingProgress (state (publish needToCreateRepo s))
       = initialPublishProgress)
    ∧ (completion (publish needToCreateRepo s) = Await (AwaitCreateRepository flag)
       ∨ completion (publish needToCreateRepo s) = Await (AwaitDelay flag))
    ∧ (∀ s', publish_resume (AwaitCreateRepository flag) None s'
             = mkOutcome [SetTimeout 3000] (Await (AwaitDelay flag)) s')
    ∧ (∀ s' r, publish_resume (AwaitDelay flag) r s'
               = mkOutcome [GitPush (files s') flag] (Await AwaitPush) s').
Proof.
  intros Hp Hv. exists (needToInit needToCreateRepo s).
  assert (Ho : publish needToCreateRepo s
    = publish_try needToCreateRepo (needToInit needToCreateRepo s)
        (if needToInit needToCreateRepo s
         then set_publishingProgress initialPublishProgress s else s)).
  { unfold publish. rewrite Hp, Hv. reflexivity. }
  split; [apply needToInit_true|]. split; [exact Ho|].
  repeat split.
  - intros Hf. rewrite Ho, Hf. unfold publish_try, publish_delay.
    by destruct (_ && _).
  - rewrite Ho. unfold publish_try, publish_delay.
    destruct (_ && _); [by left | by right].
Qed.

Lemma publish_needToInit_witness :
  ∃ flag : bool,
    (flag = true ↔
       PublishingProgress.result (publishingProgress failedRepoService)
       = Some PublishResults.Fail
       ∨ false = true
       ∨ localRepoStatus failedRepoService = LocalRepoStatus.Fail)
    ∧ publish false failedRepoService
      = publish_try false flag
          (if flag then set_publishingProgress initialPublishProgress failedRepoService
           else failedRepoService)
    ∧ (flag = true →
       publishingProgress (state (publish false failedRepoService))
       = initialPublishProgress)
    ∧ (completion (publish false failedRepoService) = Await (AwaitCreateRepository flag)
       ∨ completion (publish false failedRepoService) = Await (AwaitDelay flag))
    ∧ (∀ s', publish_resume (AwaitCreateRepository flag) None s'
             = mkOutcome [SetTimeout 3000] (Await (AwaitDelay flag)) s')
    ∧ (∀ s' r, publish_resume (AwaitDelay flag) r s'
               = mkOutcome [GitPush (files s') flag] (Await AwaitPush) s').
Proof.
  apply (publish_needToInit failedRepoService false).
  - reflexivity.
  - vm_compute. reflexivity.
Defined.

Example publish_after_local_failure :
  publish false failedRepoService
  = mkOutcome [SetTimeout 3000] (Await (AwaitDelay true))
      (set_isPublishing true
         (set_publishingProgress initialPublishProgress failedRepoService)).
Proof. vm_compute. reflexivity. Qed.

(** ** publish: a failed push *)

(** C5.  When push fails with a PublishError, the result becomes the error's
    type and the message becomes the error's own message (the empty string
    when it has none), a space and the explanation of that type, trimmed:
    what is recorded is that text without a front and a back made of white
    space only, and it has white space at neither end; the call returns.
    Any other failure is thrown again as it is and the publishing progress
    is left as it was.  Either way isPublishing ends false and no call is
    made. *)
Theorem publish_push_failed (s : State) (error : JsError) :
  let o := publish_push_settled (Some error) s in
  match error with
  | EPublishError e =>
      let explanation :=
        match PublishError.type e with
        | PublishResults.Terminated => "Publishing terminated."
        | PublishResults.Fail =>
            "This is an unexpected error, you can retry, and report it as a Github issue"
        | PublishResults.Success => ""
        end in
      let text := default "" (PublishError.message e) +:+ " " +:+ explanation in
      let recorded := PublishingProgress.message (publishingProgress (state o)) in
      completion o = Return
      ∧ publishingProgress (state o)
        = {| PublishingProgress.phase := PublishingProgress.phase (publishingProgress s);
             PublishingProgress.message := trim text;
             PublishingProgress.result := Some (PublishError.type e) |}
      ∧ ∃ front back,
          text = front +:+ recorded +:+ back
          ∧ WhiteSpaceOnly front ∧ WhiteSpaceOnly back
          ∧ ¬ startsWithWhiteSpace recorded
          ∧ ¬ endsWithWhiteSpace recorded
  | EError _ =>
      completion o = Throw error
      ∧ publishingProgress (state o) = publishingProgress s
  end
  ∧ isPublishing (state o) = false
  ∧ calls o = [].
Proof.
  destruct error as [[ty m]|m]; [|done].
  cbn [publish_push_settled publish_catch instanceof_PublishError
       PublishError.type PublishError.message completion state calls
       publishingProgress set_publishingProgress publish_finally
       set_isPublishing isPublishing PublishingProgress.message].
  split; [|done]. split; [done|].
  split; [by destruct ty|].
  replace (PUBLISH_RESULT_MESSAGE ty) with
    (match ty with
     | PublishResults.Terminated => "Publishing terminated."
     | PublishResults.Fail =>
         "This is an unexpected error, you can retry, and report it as a Github issue"
     | PublishResults.Success => ""
     end) by (by destruct ty).
  apply trim_spec.
Qed.

(** The scenario of the spec: push rejects with a Fail and "network down". *)
Example publish_push_failed_network_down :
  publishingProgress
    (state (publish_push_settled
              (Some (EPublishError
                       (PublishError.mk PublishResults.Fail (Some "network down"))))
              newService))
  = {| PublishingProgress.phase := "";
       PublishingProgress.message :=
         "network down This is an unexpected error, you can retry, and report it as a Github issue";
       PublishingProgress.result := Some PublishResults.Fail |}.
Proof. vm_compute. reflexivity. Qed.

(** White space beyond ASCII around the error's message goes as well: here
    an IDEOGRAPHIC SPACE in front of it. *)
Example publish_push_failed_ideographic_space :
  PublishingProgress.message
    (publishingProgress
       (state (publish_push_settled
                 (Some (EPublishError
                          (PublishError.mk PublishResults.Terminated
                             (Some (bytes [227; 128; 128] +:+ "stopped")))))
                 newService)))
  = "stopped Publishing terminated.".
Proof. vm_compute. reflexivity. Qed.

(** Without a message of its own the space in front is trimmed away. *)
Example publish_push_terminated_no_message :
  PublishingProgress.message
    (publishingProgress
       (state (publish_push_settled
                 (Some (EPublishError
                          (PublishError.mk PublishResults.Terminated None)))
                 newService)))
  = "Publishing terminated.".
Proof. vm_compute. reflexivity. Qed.

(** ** generateSite *)

(** C7.  When the generator returns a list of N files, that list becomes
    files, the result becomes "success" and the message is the decimal
    numeral of N followed by " files in totals". *)
Theorem generateSite_success (s : State) (fs : list string) :
  let o := generateSite_settled (inl fs) s in
  files (state o) = fs
  ∧ generatingProgress (state o)
    = {| GeneratingProgress.result := Some GeneratingProgress.success;
         GeneratingProgress.message := pretty (length fs) +:+ " files in totals" |}
  ∧ completion o = Return.
Proof. done. Qed.

Example generateSite_five_files :
  generatingProgress
    (state (generateSite_settled (inl ["a"; "b"; "c"; "d"; "e"]) newService))
  = {| GeneratingProgress.result := Some GeneratingProgress.success;
       GeneratingProgress.message := "5 files in totals" |}.
Proof. vm_compute. reflexivity. Qed.

Lemma String_length_app (a b : string) :
  String.length (a +:+ b) = String.length a + String.length b.
Proof. induction a as [|c a IH]; simpl; [done | by f_equal]. Qed.

Lemma String_app_inv_tail (a b c : string) : a +:+ c = b +:+ c → a = b.
Proof.
  revert b. induction a as [|x a IH]; intros [|y b] H; simpl in H.
  - done.
  - apply (f_equal String.length) in H.
    rewrite !String_length_app in H. simpl in H. lia.
  - apply (f_equal String.length) in H.
    rewrite !String_length_app in H. simpl in H. lia.
  - injection H as -> H. f_equal. by apply IH.
Qed.

(** Distinct counts give distinct messages: the numeral determines N. *)
Lemma generateSite_message_inj (s : State) (fs gs : list string) :
  GeneratingProgress.message
    (generatingProgress (state (generateSite_settled (inl fs) s)))
  = GeneratingProgress.message
      (generatingProgress (state (generateSite_settled (inl gs) s))) →
  length fs = length gs.
Proof.
  cbn. unfold Number_toString. intros H.
  apply (inj pretty). by apply String_app_inv_tail in H.
Qed.

(** C8.  When the generator's call fails the error goes no further: the
    call of generateSite returns, the result is "fail" and the message is
    the failure's text.  Whatever the outcome of the generator's call,
    isGenerating is false afterwards. *)
Theorem generateSite_failure (s : State) (error : Error) :
  let o := generateSite_settled (inr error) s in
  completion o = Return
  ∧ generatingProgress (state o)
    = {| GeneratingProgress.result := Some GeneratingProgress.fail;
         GeneratingProgress.message := Error_message error |}
  ∧ files (state o) = files s
  ∧ ∀ r, isGenerating (state (generateSite_settled r s)) = false
         ∧ thrown (completion (generateSite_settled r s)) = None.
Proof. repeat split. Qed.

(** ** saveGithubInfo *)

Lemma initGithubClient_githubInfo (name : string) (s : State) :
  githubInfo (initGithubClient name s).2 = githubInfo s
  ∧ ∀ c, c ∈ (initGithubClient name s).1 →
         c = GithubGetRepositoryName ∨ ∃ info, c = GithubInit info.
Proof.
  unfold initGithubClient. destruct (githubInfo s) as [info|] eqn:E.
  - destruct (negb _); cbn.
    + split; [done|]. intros c Hc. by apply elem_of_nil in Hc.
    + split; [done|]. intros c Hc.
      apply elem_of_cons in Hc as [->|Hc]; [right; eauto|].
      apply elem_of_cons in Hc as [->|Hc]; [by left|].
      by apply elem_of_nil in Hc.
  - cbn. split; [done|]. intros c Hc. by apply elem_of_nil in Hc.
Qed.

(** C9.  saveGithubInfo never throws and never changes the token of the
    stored record.  When a record is stored, every key of the argument but
    token is written over the stored record, and what is handed to the
    plugin data repository is the merged record without its token; the only
    other calls initialise the Github client.  When nothing is stored yet,
    the only call is the error written to the console, and every field of
    the service is as before. *)
Theorem saveGithubInfo_spec (s : State) (arg : JsObject) (name : string) :
  let o := saveGithubInfo arg name s in
  completion o = Return
  ∧ match githubInfo s with
    | Some current =>
        ∃ merged saved rest,
          githubInfo (state o) = Some merged
          ∧ merged !! "token" = current !! "token"
          ∧ (∀ k, k ≠ "token" →
                  merged !! k = match arg !! k with
                                | Some v => Some v
                                | None => current !! k
                                end)
          ∧ calls o = PluginSaveGithubInfo saved :: rest
          ∧ saved !! "token" = None
          ∧ (∀ k, k ≠ "token" → saved !! k = merged !! k)
          ∧ (∀ c, c ∈ rest →
                  c = GithubGetRepositoryName ∨ ∃ info, c = GithubInit info)
    | None =>
        calls o = [ConsoleError "this.githubInfo.value is null"]
        ∧ state o = s
    end.
Proof.
  unfold saveGithubInfo. destruct (githubInfo s) as [current|] eqn:E; [|done].
  set (merged := Object_assign current (Lodash.omit arg ["token"])).
  pose proof (initGithubClient_githubInfo name (set_githubInfo (Some merged) s))
    as [Hinfo Hcalls].
  destruct (initGithubClient name (set_githubInfo (Some merged) s)) as [cs s2].
  cbn [fst snd githubInfo set_githubInfo calls completion state] in *.
  split; [done|].
  exists merged, (Lodash.omit merged ["token"]), cs.
  repeat split; try done.
  - unfold merged. rewrite lookup_Object_assign, lookup_omit.
    rewrite decide_True by (apply list_elem_of_singleton; done). done.
  - intros k Hk. unfold merged. rewrite lookup_Object_assign, lookup_omit.
    rewrite decide_False by (rewrite list_elem_of_singleton; done). done.
  - rewrite lookup_omit.
    rewrite decide_True by (apply list_elem_of_singleton; done). done.
  - intros k Hk. rewrite lookup_omit.
    rewrite decide_False by (rewrite list_elem_of_singleton; done). done.
Qed.

(** A token in the argument is dropped, the other keys are taken. *)
Example saveGithubInfo_ignores_token :
  let s := set_githubInfo (Some (<["token" := JString "t"]> sampleGithubInfo)) newService in
  let o := saveGithubInfo
             (<["token" := JString "stolen"]> {["userName" := JString "z"]})
             "z.github.io" s in
  githubInfo (state o)
  = Some (<["token" := JString "t"]>
            (<["userName" := JString "z"]> {["email" := JString "b@x.com"]}))
  ∧ calls o
    = [ PluginSaveGithubInfo
          (<["userName" := JString "z"]> {["email" := JString "b@x.com"]});
        GithubInit (<["token" := JString "t"]>
                      (<["userName" := JString "z"]> {["email" := JString "b@x.com"]}));
        GithubGetRepositoryName ].
Proof. vm_compute. done. Qed.

(** ** files across a run *)

(** Unfolds the segments of the methods and splits on their tests; the
    delay of the timer is of no import there and is put out of the way. *)
Ltac segments :=
  unfold publish_resume, publish_createRepository_settled, publish,
    publish_try, publish_delay in *;
  try (set (ms := 3000) in *; clearbody ms);
  unfold react_sync, react_init, react_generate_call, react_generate_settled,
    react_publish_call, react_publish_resumed, react_event,
    publish_resume, publish_createRepository_settled, publish_delay_elapsed,
    publish_push_settled, publish, publish_try, publish_delay, publish_catch,
    publish_finally, stopPublishing, saveGithubInfo, init_outputDir,
    init_githubToken, init_githubInfo, initGithubClient, generateSite,
    generateSite_settled, handleLocalRepoStatusChanged,
    refreshPublishingProgress_default, refreshPublishingProgress,
    refreshGeneratingProgress_default, refreshGeneratingProgress in *;
  repeat (case_match; simplify_eq/=); simplify_eq/=.

Section runs.
Variable DEFAULT_GITHUB : JsObject.

(** Only a generator call that succeeded writes [files]. *)
Lemma step_files (w : World) (ev : Event) (r : Reaction) :
  step DEFAULT_GITHUB w ev = Some r →
  files (service (world r)) = lastGenerated (files (service w)) [ev].
Proof.
  intros H. destruct ev; cbn [step] in H; segments; reflexivity.
Qed.

(** [push] is handed the [files] of the moment it is called. *)
Lemma step_push (w : World) (ev : Event) (r : Reaction) fs b :
  step DEFAULT_GITHUB w ev = Some r → GitPush fs b ∈ made r → fs = files (service w).
Proof.
  intros H Hin. destruct ev; cbn [step] in H; segments;
    repeat (apply elem_of_cons in Hin as [Hin|Hin]; simplify_eq/=);
    try (by apply elem_of_nil in Hin); reflexivity.
Qed.

Lemma lastGenerated_app base evs1 evs2 :
  lastGenerated base (evs1 ++ evs2) = lastGenerated (lastGenerated base evs1) evs2.
Proof.
  revert base. induction evs1 as [|ev evs1 IH]; intros base; [done|].
  destruct ev as [| | | | | | |[fs|e]| | | | | | | |]; cbn; apply IH.
Qed.

Lemma final_cons (w : World) r rs : final w (r :: rs) = final (world r) rs.
Proof.
  unfold final. destruct rs as [|r' rs]; [done|].
  rewrite last_cons_cons.
  destruct (last (r' :: rs)) as [x|] eqn:E; [done|].
  by apply last_None in E.
Qed.

Lemma run_files (w : World) evs rs :
  run DEFAULT_GITHUB w evs = Some rs →
  files (service (final w rs)) = lastGenerated (files (service w)) evs.
Proof.
  revert w rs. induction evs as [|ev evs IH]; intros w rs H; cbn in H.
  - by simplify_eq.
  - destruct (step DEFAULT_GITHUB w ev) as [r|] eqn:Hs; [|done].
    destruct (run DEFAULT_GITHUB (world r) evs) as [rs'|] eqn:Hr; [|done]. simplify_eq.
    rewrite final_cons, (IH _ _ Hr), (step_files _ _ _ Hs).
    by rewrite <- lastGenerated_app.
Qed.

Lemma run_push (w : World) evs rs i r fs b :
  run DEFAULT_GITHUB w evs = Some rs →
  rs !! i = Some r →
  GitPush fs b ∈ made r →
  fs = lastGenerated (files (service w)) (take i evs).
Proof.
  revert w rs i. induction evs as [|ev evs IH]; intros w rs i H Hi Hin; cbn in H.
  - by simplify_eq.
  - destruct (step DEFAULT_GITHUB w ev) as [r0|] eqn:Hs; [|done].
    destruct (run DEFAULT_GITHUB (world r0) evs) as [rs'|] eqn:Hr; [|done]. simplify_eq.
    destruct i as [|i]; cbn in Hi.
    + simplify_eq. cbn. by eapply step_push.
    + rewrite (IH _ _ _ Hr Hi Hin), (step_files _ _ _ Hs).
      change (take (S i) (ev :: evs)) with (([ev] ++ take i evs)%list).
      by rewrite lastGenerated_app.
Qed.

End runs.

(** C6.  Along every run from the construction of the service, files is
    the list returned by the latest generator call that succeeded, empty
    when none did; each push is handed exactly that list as it stands when
    push is called; a generator call that fails leaves files as they are. *)
Theorem files_latest_generate
    (DEFAULT_GITHUB : JsObject) (evs : list Event) (rs : list Reaction) :
  run DEFAULT_GITHUB world0 evs = Some rs →
  files (service (final world0 rs)) = lastGenerated [] evs
  ∧ (∀ i r fs b,
       rs !! i = Some r → GitPush fs b ∈ made r →
       fs = lastGenerated [] (take i evs))
  ∧ (∀ w r error,
       step DEFAULT_GITHUB w (GenerateSiteSettled (inr error)) = Some r →
       files (service (world r)) = files (service w)).
Proof.
  intros H. split; [|split].
  - by rewrite (run_files _ _ _ _ H).
  - intros i r fs b Hi Hin. by rewrite (run_push _ _ _ _ _ _ _ _ H Hi Hin).
  - intros w r error Hs. by rewrite (step_files _ _ _ _ Hs).
Qed.

Lemma files_latest_generate_witness :
  ∃ rs,
    run ∅ world0 run_generate_then_publish = Some rs
    ∧ made <$> last rs = Some [GitPush ["index.html"; "about.html"] false]
    ∧ files (service (final world0 rs)) = lastGenerated [] run_generate_then_publish
    ∧ (∀ i r fs b,
         rs !! i = Some r → GitPush fs b ∈ made r →
         fs = lastGenerated [] (take i run_generate_then_publish))
    ∧ (∀ w r error,
         step ∅ w (GenerateSiteSettled (inr error)) = Some r →
         files (service (world r)) = files (service w)).
Proof.
  eexists. split; [vm_compute; reflexivity|]. split; [reflexivity|].
  apply (files_latest_generate ∅ run_generate_then_publish).
  vm_compute. reflexivity.
Defined.

(** ** stopPublishing *)

(** An attempt stays in its grace window until its own timer fires. *)
Lemma step_keeps_delay (DEFAULT_GITHUB : JsObject)
    (w : World) (ev : Event) (r : Reaction) (i : nat) (n : bool) :
  step DEFAULT_GITHUB w ev = Some r →
  ev ≠ TimerFired i →
  publishTasks w !! i = Some (Some (AwaitDelay n)) →
  publishTasks (world r) !! i = Some (Some (AwaitDelay n)).
Proof.
  intros H Hev Hi.
  destruct ev; cbn [step] in H;
    try (segments; first [exact Hi | by apply lookup_app_l_Some]; fail).
  - destruct (publishTasks w !! attempt) as [[[]|]|] eqn:E; simplify_eq/=.
    rewrite list_lookup_insert_ne; [done|]. intros ->. congruence.
  - destruct (publishTasks w !! attempt) as [[[]|]|] eqn:E; simplify_eq/=.
    rewrite list_lookup_insert_ne; [done|]. intros ->. congruence.
  - destruct (publishTasks w !! attempt) as [[[]|]|] eqn:E; simplify_eq/=.
    rewrite list_lookup_insert_ne; [done|]. intros ->. congruence.
Qed.

Lemma run_keeps_delay (DEFAULT_GITHUB : JsObject)
    (w : World) (evs : list Event) (rs : list Reaction) (i : nat) (n : bool) :
  run DEFAULT_GITHUB w evs = Some rs →
  TimerFired i ∉ evs →
  publishTasks w !! i = Some (Some (AwaitDelay n)) →
  publishTasks (final w rs) !! i = Some (Some (AwaitDelay n)).
Proof.
  revert w rs. induction evs as [|ev evs IH]; intros w rs H Hnot Hi; cbn in H.
  - by simplify_eq.
  - destruct (step DEFAULT_GITHUB w ev) as [r|] eqn:Hs; [|done].
    destruct (run DEFAULT_GITHUB (world r) evs) as [rs'|] eqn:Hr; [|done].
    simplify_eq. rewrite final_cons. apply (IH _ _ Hr).
    + intros Hin. apply Hnot. by right.
    + eapply step_keeps_delay; [exact Hs | | exact Hi].
      intros ->. apply Hnot. by left.
Qed.

(** What the code does once stopPublishing was called while an attempt is
    in its grace window: isPublishing becomes false, terminate is sent to
    the local repository controller and nothing is thrown; but nothing the
    attempt runs afterwards reads the flag or any other signal, so whatever
    happens next the attempt stays suspended on its timer and calls push
    when the timer fires, with the files of that moment and its flag.  The
    result then only follows how push settles, and a publish call made
    after stopPublishing starts a new attempt. *)
Lemma stopPublishing_after_stop
    (DEFAULT_GITHUB : JsObject) (w : World) (i : nat) (n : bool)
    (evs : list Event) (rs : list Reaction) :
  publishTasks w !! i = Some (Some (AwaitDelay n)) →
  TimerFired i ∉ evs →
  run DEFAULT_GITHUB w (CallStopPublishing :: evs) = Some rs →
  ∃ r_stop r_timer,
    rs !! 0 = Some r_stop
    ∧ made r_stop = [GitTerminate]
    ∧ raised r_stop = None
    ∧ isPublishing (service (world r_stop)) = false
    ∧ step DEFAULT_GITHUB (final w rs) (TimerFired i) = Some r_timer
    ∧ made r_timer = [GitPush (files (service (final w rs))) n]
    ∧ publishTasks (world r_timer) !! i = Some (Some AwaitPush)
    ∧ (∀ w2 settled, publishTasks w2 !! i = Some (Some AwaitPush) →
         ∃ r_push,
           step DEFAULT_GITHUB w2 (PushSettled i settled) = Some r_push
           ∧ made r_push = []
           ∧ PublishingProgress.result (publishingProgress (service (world r_push)))
             = match settled with
               | None => Some PublishResults.Success
               | Some (EPublishError e) => Some (PublishError.type e)
               | Some (EError _) =>
                   PublishingProgress.result (publishingProgress (service w2))
               end
           ∧ raised r_push = match settled with
                             | Some (EError m) => Some (EError m)
                             | _ => None
                             end)
    ∧ (∀ b, isGithubInfoValid (githubInfo (service w)) = true →
         ∃ task, completion (publish b (service (world r_stop))) = Await task).
Proof.
  intros Hi Hnot Hrun. cbn [run step] in Hrun.
  set (r_stop := react_sync (stopPublishing (service w)) w) in *.
  destruct (run DEFAULT_GITHUB (world r_stop) evs) as [rs'|] eqn:Hr; [|done].
  simplify_eq. rewrite final_cons.
  pose proof (run_keeps_delay _ _ _ _ i n Hr Hnot Hi) as Hf.
  set (wf := final (world r_stop) rs') in *.
  exists r_stop,
    (react_publish_resumed i (publish_resume (AwaitDelay n) None (service wf)) wf).
  do 4 (split; [reflexivity|]).
  split. { cbn [step]. rewrite Hf. reflexivity. }
  split; [reflexivity|].
  split. { cbn. apply list_lookup_insert_eq. by eapply lookup_lt_Some. }
  split.
  - intros w2 settled H2. cbn [step]. rewrite H2. eexists.
    split; [reflexivity|]. by destruct settled as [[e|m]|].
  - intros b Hv. cbn. unfold publish. cbn. rewrite Hv. cbn.
    unfold publish_try, publish_delay. destruct (_ && _); eauto.
Qed.

Lemma stopPublishing_after_stop_witness :
  ∃ rs r_stop r_timer,
    run ∅ graceWindowWorld
      (CallStopPublishing :: [CallGenerateSite false; GitMessage "late"]) = Some rs
    ∧ rs !! 0 = Some r_stop
    ∧ made r_stop = [GitTerminate]
    ∧ raised r_stop = None
    ∧ isPublishing (service (world r_stop)) = false
    ∧ step ∅ (final graceWindowWorld rs) (TimerFired 0) = Some r_timer
    ∧ made r_timer = [GitPush (files (service (final graceWindowWorld rs))) false]
    ∧ publishTasks (world r_timer) !! 0 = Some (Some AwaitPush)
    ∧ (∀ w2 settled, publishTasks w2 !! 0 = Some (Some AwaitPush) →
         ∃ r_push,
           step ∅ w2 (PushSettled 0 settled) = Some r_push
           ∧ made r_push = []
           ∧ PublishingProgress.result (publishingProgress (service (world r_push)))
             = match settled with
               | None => Some PublishResults.Success
               | Some (EPublishError e) => Some (PublishError.type e)
               | Some (EError _) =>
                   PublishingProgress.result (publishingProgress (service w2))
               end
           ∧ raised r_push = match settled with
                             | Some (EError m) => Some (EError m)
                             | _ => None
                             end)
    ∧ (∀ b, isGithubInfoValid (githubInfo (service graceWindowWorld)) = true →
         ∃ task, completion (publish b (service (world r_stop))) = Await task).
Proof.
  eexists. 
  assert (Hrun : run ∅ graceWindowWorld
            (CallStopPublishing :: [CallGenerateSite false; GitMessage "late"])
          = Some _) by (vm_compute; reflexivity).
  assert (Hnot : TimerFired 0 ∉ [CallGenerateSite false; GitMessage "late"]).
  { intros Hin. repeat (apply elem_of_cons in Hin as [Hin|Hin]; [discriminate|]).
    by apply elem_of_nil in Hin. }
  destruct (stopPublishing_after_stop ∅ graceWindowWorld 0 false _ _
              eq_refl Hnot Hrun) as (r_stop & r_timer & H).
  exists r_stop, r_timer. split; [exact Hrun | exact H].
Defined.

(** C1.  The claim asks that a stopPublishing called during the grace window
    of an attempt keeps push from being called for that attempt.  The code
    misses it: in the run below publish(false) suspends on its timer with
    isPublishing true, stopPublishing clears the flag and sends terminate,
    and when the timer fires push is called all the same. *)
Theorem stopPublishing_in_grace_window_still_pushes :
  ∃ r_publish r_stop r_timer,
    run ∅ world0 run_stop_in_grace_window
    = Some [ react_init (init_outputDir "/out" newService) world0;
             react_init (init_githubToken (JString "t") (set_outputDir "/out" newService))
               (mkWorld (set_outputDir "/out" newService) (Some InitAwaitGithubToken) None []);
             react_init
               (init_githubInfo ∅ (JString "t") (Some sampleGithubInfo) "a.github.io"
                  (set_outputDir "/out" newService))
               (mkWorld (set_outputDir "/out" newService)
                  (Some (InitAwaitGithubInfo (JString "t"))) None []);
             r_publish; r_stop; r_timer ]
    ∧ made r_publish = [SetTimeout 3000]
    ∧ isPublishing (service (world r_publish)) = true
    ∧ publishTasks (world r_publish) = [Some (AwaitDelay false)]
    ∧ made r_stop = [GitTerminate]
    ∧ isPublishing (service (world r_stop)) = false
    ∧ publishTasks (world r_stop) = [Some (AwaitDelay false)]
    ∧ made r_timer = [GitPush [] false]
    ∧ publishTasks (world r_timer) = [Some AwaitPush].
Proof.
  eexists _, _, _. split; [vm_compute; reflexivity|].
  vm_compute. done.
Qed.

(** After stopPublishing a second publish starts a second attempt, which
    pushes in its turn. *)
Example publish_after_stop_pushes :
  ∃ rs r,
    run ∅ world0 run_publish_after_stop = Some rs
    ∧ last rs = Some r
    ∧ made r = [GitPush [] false]
    ∧ publishTasks (world r) = [Some (AwaitDelay false); Some AwaitPush].
Proof.
  eexists _, _. split; [vm_compute; reflexivity|].
  split; [reflexivity|]. vm_compute. done.
Qed.

(** ** selfish *)

Module SelfishFacts.
Import Selfish.

Lemma WeakMap_find_set_eq (m : WeakMap) (k v : Fn) :
  WeakMap_find (WeakMap_set m k v) k = Some v.
Proof.
  unfold WeakMap_find, WeakMap_set. cbn.
  by rewrite bool_decide_eq_true_2.
Qed.

Lemma find_filter_ne (m : WeakMap) (k k' : Fn) :
  k ≠ k' →
  List.find (λ kv, bool_decide (kv.1 = k'))
    (List.filter (λ kv, negb (bool_decide (kv.1 = k))) m)
  = List.find (λ kv, bool_decide (kv.1 = k')) m.
Proof.
  intros Hne. induction m as [|[a b] m IH]; [done|]. cbn.
  destruct (decide (a = k)) as [->|Ha].
  - rewrite bool_decide_eq_true_2 by done. cbn.
    rewrite (bool_decide_eq_false_2 (k = k')) by done. exact IH.
  - rewrite (bool_decide_eq_false_2 (a = k)) by done. cbn.
    by rewrite IH.
Qed.

Lemma WeakMap_find_set_ne (m : WeakMap) (k k' v : Fn) :
  k ≠ k' → WeakMap_find (WeakMap_set m k v) k' = WeakMap_find m k'.
Proof.
  intros Hne. unfold WeakMap_find, WeakMap_set. cbn.
  rewrite (bool_decide_eq_false_2 (k = k')) by done.
  by rewrite find_filter_ne.
Qed.

(** Setting a key the map does not have puts one entry in front. *)
Lemma filter_absent (m : WeakMap) (k : Fn) :
  WeakMap_find m k = None →
  List.filter (λ kv, negb (bool_decide (kv.1 = k))) m = m ∧ k ∉ m.*1.
Proof.
  unfold WeakMap_find. induction m as [|[a b] m IH]; cbn.
  - intros _. split; [done|]. apply not_elem_of_nil.
  - case_bool_decide as Ha; cbn; [done|]. intros Hf.
    destruct (IH Hf) as [-> Hn]. split; [done|].
    apply not_elem_of_cons. split; [congruence|done].
Qed.

Lemma WeakMap_has_find (m : WeakMap) (k : Fn) :
  WeakMap_has m k = bool_decide (WeakMap_find m k ≠ None).
Proof.
  unfold WeakMap_has. destruct (WeakMap_find m k) as [b|].
  - rewrite !bool_decide_eq_true_2; eauto.
  - rewrite !bool_decide_eq_false_2; [done|tauto|]. by intros [? ?].
Qed.

Lemma Bound_neq (f : Fn) : ∀ n t, Bound n f t ≠ f.
Proof.
  induction f as [id|m g IH u]; intros n t; [done|].
  intros [= -> Hg ->]. by apply (IH m u).
Qed.

Lemma grows_refl (ph : Proxy * Heap) : grows ph ph.
Proof. by split. Qed.

Lemma grows_trans (a b c : Proxy * Heap) : grows a b → grows b c → grows a c.
Proof.
  intros [Ht1 Hc1] [Ht2 Hc2]. split; [congruence|]. intros g x Hg.
  by apply Hc2, Hc1.
Qed.

Lemma selfish_sound (t : nat) : sound (selfish t).
Proof. split; [intros f b H; discriminate H|]. cbn. apply NoDup_nil_2. Qed.

Lemma Proxy_get_eq (depth : nat) (G : Getters) :
  Proxy_get depth G = Proxy_get_with (nested depth G) G.
Proof. by destruct depth. Qed.

Section reads_facts.

Variable read : Proxy * Heap → string → Access * (Proxy * Heap).
Variable G : Getters.

(** Reading a data property runs no getter. *)
Lemma Reflect_get_data (ph : Proxy * Heap) (t : nat) (key : string)
    (v : Value) (locked : bool) :
  property ph.2 t key = Some (Data v locked) →
  Reflect_get read G ph t key = (Some v, ph).
Proof. unfold Reflect_get. by intros ->. Qed.

Lemma Reflect_get_missing (ph : Proxy * Heap) (t : nat) (key : string) :
  property ph.2 t key = None →
  Reflect_get read G ph t key = (Some (Prim JUndefined), ph).
Proof. unfold Reflect_get. by intros ->. Qed.

(** What the trap does with what [Reflect.get] yields. *)
Lemma get_eq (ph : Proxy * Heap) (key : string) :
  get read G ph key =
  let reflected := Reflect_get read G ph (target ph.1) key in
  match reflected.1 with
  | Some (Fun f) =>
      match WeakMap_find (cache reflected.2.1) f with
      | Some b => (Some (Fun b), reflected.2)
      | None =>
          let b := Bound (bounds reflected.2.2) f (target reflected.2.1) in
          (Some (Fun b),
           (mkProxy (target reflected.2.1) (WeakMap_set (cache reflected.2.1) f b),
            mkHeap (objects reflected.2.2) (S (bounds reflected.2.2))))
      end
  | _ => reflected
  end.
Proof.
  unfold get. destruct (Reflect_get read G ph (target ph.1) key) as [c [p h]].
  destruct c as [[v|r|f]|]; cbn [fst snd]; try done.
  rewrite WeakMap_has_find.
  destruct (WeakMap_find (cache p) f) as [b|] eqn:E.
  - rewrite bool_decide_eq_true_2 by done. cbn [negb].
    unfold WeakMap_get. by rewrite E.
  - rewrite bool_decide_eq_false_2 by tauto.
    unfold bind. cbn [negb cache]. unfold WeakMap_get.
    by rewrite WeakMap_find_set_eq.
Qed.

(** The access leaves the proxy and the heap as the trap left them. *)
Lemma Proxy_get_with_state (ph : Proxy * Heap) (key : string) :
  (Proxy_get_with read G ph key).2 = (get read G ph key).2.
Proof.
  unfold Proxy_get_with. destruct (get read G ph key) as [[v|] [p1 h1]]; [|done].
  by destruct (property h1 (target p1) key) as [[? []|?]|].
Qed.

(** What the access yields, by the property the target has afterwards. *)
Lemma Proxy_get_with_access (ph : Proxy * Heap) (key : string) :
  (Proxy_get_with read G ph key).1 =
  let trap := get read G ph key in
  match trap.1 with
  | Some result =>
      match property trap.2.2 (target trap.2.1) key with
      | Some (Data value true) =>
          if bool_decide (result = value) then Normal result else TypeError
      | _ => Normal result
      end
  | None => Thrown
  end.
Proof.
  unfold Proxy_get_with. destruct (get read G ph key) as [[v|] [p1 h1]]; [|done].
  cbn. by destruct (property h1 (target p1) key) as [[? []|?]|].
Qed.

Hypothesis read_keeps : keeps read.

Lemma exec_keeps (ph : Proxy * Heap) (op : Op) :
  sound ph.1 → sound (exec read ph op).1 ∧ grows ph (exec read ph op).
Proof.
  intros Hs. destruct op as [key|ref key prop|ref key|f thisArg]; cbn.
  - by apply read_keeps.
  - split; [done|]. by split.
  - split; [done|]. by split.
  - split; [done|]. by split.
Qed.

Lemma foldl_exec_keeps (ops : list Op) (ph : Proxy * Heap) :
  sound ph.1 →
  sound (foldl (exec read) ph ops).1 ∧ grows ph (foldl (exec read) ph ops).
Proof.
  revert ph. induction ops as [|op ops IH]; intros ph Hs.
  - split; [done|apply grows_refl].
  - cbn [foldl]. destruct (exec_keeps ph op Hs) as [Hs1 Hg1].
    destruct (IH _ Hs1) as [Hs2 Hg2]. split; [done|].
    by eapply grows_trans.
Qed.

(** Whatever the getter does, the cache stays as the handler builds it. *)
Lemma Reflect_get_keeps (ph : Proxy * Heap) (t : nat) (key : string) :
  sound ph.1 →
  sound (Reflect_get read G ph t key).2.1
  ∧ grows ph (Reflect_get read G ph t key).2.
Proof.
  intros Hs. unfold Reflect_get.
  destruct (property ph.2 t key) as [[v locked|getter]|].
  - split; [done|apply grows_refl].
  - destruct (G getter t ph) as [ops returned]. cbn [snd].
    by apply foldl_exec_keeps.
  - split; [done|apply grows_refl].
Qed.

Lemma get_keeps (ph : Proxy * Heap) (key : string) :
  sound ph.1 →
  sound (get read G ph key).2.1 ∧ grows ph (get read G ph key).2.
Proof.
  intros Hs. rewrite get_eq.
  destruct (Reflect_get_keeps ph (target ph.1) key Hs) as [Hs1 Hg1].
  destruct (Reflect_get read G ph (target ph.1) key) as [c [p h]].
  cbn [fst snd] in *.
  destruct c as [[v|r|f]|]; try done.
  destruct (WeakMap_find (cache p) f) as [b|] eqn:E; [done|].
  destruct (filter_absent _ _ E) as [Hfl Hnot].
  cbn [fst snd]. split; [split|].
  - intros g b. cbn [cache target]. destruct (decide (f = g)) as [<-|Hne].
    + rewrite WeakMap_find_set_eq. intros [= <-]. eauto.
    + rewrite WeakMap_find_set_ne by done. apply Hs1.
  - cbn [cache]. unfold WeakMap_set. rewrite Hfl. cbn.
    apply NoDup_cons. split; [done|apply Hs1].
  - eapply grows_trans; [exact Hg1|]. split; [done|].
    intros g b Hg. cbn [fst cache] in *.
    rewrite WeakMap_find_set_ne; [done|]. intros ->. congruence.
Qed.

Lemma Proxy_get_with_keeps : keeps (Proxy_get_with read G).
Proof. intros ph key Hs. rewrite Proxy_get_with_state. by apply get_keeps. Qed.

(** The trap on a function: what it yields is that function bound to the
    target, and the cache holds it afterwards. *)
Lemma get_bound (ph : Proxy * Heap) (key : string) (f : Fn) :
  sound ph.1 →
  (Reflect_get read G ph (target ph.1) key).1 = Some (Fun f) →
  ∃ n, (get read G ph key).1 = Some (Fun (Bound n f (target ph.1)))
       ∧ WeakMap_find (cache (get read G ph key).2.1) f
         = Some (Bound n f (target ph.1)).
Proof.
  intros Hs E. rewrite get_eq.
  destruct (Reflect_get_keeps ph (target ph.1) key Hs) as [[Hb _] [Ht _]].
  destruct (Reflect_get read G ph (target ph.1) key) as [c [p h]].
  cbn [fst snd] in *. subst c.
  destruct (WeakMap_find (cache p) f) as [b|] eqn:Ef.
  - destruct (Hb _ _ Ef) as [n ->]. exists n. rewrite <- Ht. done.
  - exists (bounds h). cbn [fst snd cache]. rewrite <- Ht.
    by rewrite WeakMap_find_set_eq.
Qed.

(** The trap on a function the cache holds already. *)
Lemma get_cached (ph : Proxy * Heap) (key : string) (f b : Fn) :
  sound ph.1 →
  (Reflect_get read G ph (target ph.1) key).1 = Some (Fun f) →
  WeakMap_find (cache ph.1) f = Some b →
  (get read G ph key).1 = Some (Fun b).
Proof.
  intros Hs E Hf. rewrite get_eq.
  destruct (Reflect_get_keeps ph (target ph.1) key Hs) as [_ [_ Hm]].
  destruct (Reflect_get read G ph (target ph.1) key) as [c [p h]].
  cbn [fst snd] in *. subst c. by rewrite (Hm _ _ Hf).
Qed.


(** The trap changes no property of any object. *)
Lemma get_objects (ph : Proxy * Heap) (key : string) :
  objects (get read G ph key).2.2
  = objects (Reflect_get read G ph (target ph.1) key).2.2.
Proof.
  rewrite get_eq.
  destruct (Reflect_get read G ph (target ph.1) key) as [[[v|r|f]|] [p h]];
    try done.
  cbn [fst snd]. by destruct (WeakMap_find (cache p) f).
Qed.

End reads_facts.

Lemma stackExhausted_keeps : keeps stackExhausted.
Proof. intros ph key Hs. split; [done|apply grows_refl]. Qed.

Lemma Proxy_get_keeps (depth : nat) (G : Getters) : keeps (Proxy_get depth G).
Proof.
  induction depth as [|d IH]; rewrite Proxy_get_eq;
    apply Proxy_get_with_keeps; [apply stackExhausted_keeps | exact IH].
Qed.

Lemma nested_keeps (depth : nat) (G : Getters) : keeps (nested depth G).
Proof.
  destruct depth as [|d]; [apply stackExhausted_keeps | apply Proxy_get_keeps].
Qed.

Lemma execs_keeps (depth : nat) (G : Getters) (ph : Proxy * Heap) (ops : list Op) :
  sound ph.1 →
  sound (execs depth G ph ops).1 ∧ grows ph (execs depth G ph ops).
Proof. apply foldl_exec_keeps, Proxy_get_keeps. Qed.

(** The access on a data property that holds a function: the bound function
    when the property is not locked, a TypeError when it is. *)
Lemma Proxy_get_data_function (depth : nat) (G : Getters) (ph : Proxy * Heap)
    (key : string) (f : Fn) (locked : bool) :
  sound ph.1 →
  property ph.2 (target ph.1) key = Some (Data (Fun f) locked) →
  ∃ n,
    (get (nested depth G) G ph key).1 = Some (Fun (Bound n f (target ph.1)))
    ∧ (Proxy_get depth G ph key).1
      = if locked then TypeError else Normal (Fun (Bound n f (target ph.1))).
Proof.
  intros Hs Hp. set (read := nested depth G).
  pose proof (Reflect_get_data read G ph _ _ _ _ Hp) as Er.
  assert (E : (Reflect_get read G ph (target ph.1) key).1 = Some (Fun f))
    by by rewrite Er.
  destruct (get_bound read G (nested_keeps depth G) ph key f Hs E) as (n & Hv & _).
  exists n. split; [exact Hv|].
  rewrite Proxy_get_eq, Proxy_get_with_access. fold read. cbn zeta.
  rewrite Hv.
  destruct (get_keeps read G (nested_keeps depth G) ph key Hs) as [_ [Ht _]].
  rewrite Ht. unfold property.
  rewrite (get_objects read G ph key), Er. cbn [snd].
  fold (property ph.2 (target ph.1) key). rewrite Hp.
  destruct locked; [|done].
  rewrite bool_decide_eq_false_2; [done|].
  intros [= H]. by apply Bound_neq in H.
Qed.



(** Without the cache two reads would differ: [bind] makes a new function
    each time. *)
Example bind_twice_differs (f : Fn) (t : nat) (h : Heap) :
  (bind f t h).1 ≠ (bind f t (bind f t h).2).1.
Proof. cbn. intros [= H]. lia. Qed.

(** A getter that reads through the proxy itself: reading [current] binds
    the function [stop] holds on the way, then the one the getter returns,
    and a later read of [start] is answered with that same bound function. *)
Example getter_reads_through_proxy :
  let first := Proxy_get 1 sampleGetters (selfish 0, accessorHeap) "current" in
  let second := Proxy_get 1 sampleGetters first.2 "start" in
  first.1 = Normal (Fun (Bound 1 (Plain 1) 0))
  ∧ cache first.2.1 = [(Plain 1, Bound 1 (Plain 1) 0); (Plain 2, Bound 0 (Plain 2) 0)]
  ∧ property first.2.2 0 "name" = Some (Data (Prim (JString "git")) false)
  ∧ second.1 = Normal (Fun (Bound 1 (Plain 1) 0))
  ∧ second.2 = first.2.
Proof. vm_compute. done. Qed.

(** A getter that throws: so does the access, and nothing is cached. *)
Example getter_throws :
  Proxy_get 0 throwingGetters (selfish 0, accessorHeap) "current"
  = (Thrown, (selfish 0, accessorHeap)).
Proof. vm_compute. done. Qed.

End SelfishFacts.

(** * Further properties of the service *)



(** ** Runs *)

Lemma run_invariant (DEFAULT_GITHUB : JsObject) (P : World → Prop) :
  (∀ w ev r, P w → step DEFAULT_GITHUB w ev = Some r → P (world r)) →
  ∀ evs w rs, P w → run DEFAULT_GITHUB w evs = Some rs → P (final w rs).
Proof.
  intros Hstep. induction evs as [|ev evs IH]; intros w rs Hw H; cbn in H.
  - by simplify_eq.
  - destruct (step DEFAULT_GITHUB w ev) as [r|] eqn:Hs; [|done].
    destruct (run DEFAULT_GITHUB (world r) evs) as [rs'|] eqn:Hr; [|done].
    simplify_eq. rewrite final_cons. eapply IH; [|exact Hr]. eauto.
Qed.

(** Each reaction of a run is the step of the world before it. *)
Lemma run_lookup (DEFAULT_GITHUB : JsObject) (evs : list Event) :
  ∀ w rs i r,
    run DEFAULT_GITHUB w evs = Some rs →
    rs !! i = Some r →
    ∃ ev, evs !! i = Some ev
          ∧ run DEFAULT_GITHUB w (take i evs) = Some (take i rs)
          ∧ step DEFAULT_GITHUB (before w rs i) ev = Some r.
Proof.
  induction evs as [|ev evs IH]; intros w rs i r H Hi; cbn in H.
  - by simplify_eq.
  - destruct (step DEFAULT_GITHUB w ev) as [r0|] eqn:Hs; [|done].
    destruct (run DEFAULT_GITHUB (world r0) evs) as [rs'|] eqn:Hr; [|done].
    simplify_eq. destruct i as [|i]; cbn in Hi.
    + simplify_eq. exists ev. split; [done|]. split; [done|]. exact Hs.
    + destruct (IH _ _ _ _ Hr Hi) as (ev' & He & Ht & Hst).
      exists ev'. split; [done|]. split.
      * cbn. by rewrite Hs, Ht.
      * unfold before in *. cbn [take]. by rewrite final_cons.
Qed.

Lemma run_invariant_before (DEFAULT_GITHUB : JsObject) (P : World → Prop) :
  (∀ w ev r, P w → step DEFAULT_GITHUB w ev = Some r → P (world r)) →
  ∀ evs w rs i r,
    P w → run DEFAULT_GITHUB w evs = Some rs → rs !! i = Some r →
    P (before w rs i)
    ∧ ∃ ev, evs !! i = Some ev ∧ step DEFAULT_GITHUB (before w rs i) ev = Some r.
Proof.
  intros Hstep evs w rs i r Hw H Hi.
  destruct (run_lookup _ _ _ _ _ _ H Hi) as (ev & He & Ht & Hs).
  split; [|eauto]. unfold before. by eapply run_invariant.
Qed.

(** ** generateSite: the entry guard *)

(** X1.  generateSite calls the generator exactly when no generation is in
    flight and the application raises no warning; it then suspends on the
    generator's promise with isGenerating true and the generating progress
    put back to its initial value, having asked for the warning and called
    the generator and nothing else.  Otherwise it throws, leaves every
    field as it was and does not call the generator; when a generation is
    in flight it does not even ask the application for its warning. *)
Theorem generateSite_guard (warning : bool) (s : State) :
  let o := generateSite warning s in
  (GeneratorGenerateSite ∈ calls o ↔ isGenerating s = false ∧ warning = false)
  ∧ (GeneratorGenerateSite ∈ calls o →
     o = mkOutcome [AppGetLatestWarning; GeneratorGenerateSite]
           (Await AwaitGenerateSite)
           (set_generatingProgress initialGeneratingProgress
              (set_isGenerating true s)))
  ∧ (GeneratorGenerateSite ∉ calls o →
     completion o = Throw (EError "generating!") ∧ state o = s
     ∧ calls o = if isGenerating s then [] else [AppGetLatestWarning])
  ∧ match completion o with
    | Await _ =>
        isGenerating s = false ∧ warning = false
        ∧ state o = set_generatingProgress initialGeneratingProgress
                      (set_isGenerating true s)
    | Throw e =>
        e = EError "generating!" ∧ state o = s
        ∧ (isGenerating s = true → calls o = [])
    | Return => False
    end.
Proof.
  unfold generateSite. destruct (isGenerating s) eqn:Hg, warning; cbn.
  all: split; [split; [intros Hin | intros [? ?]; try done]|].
  all: try (repeat (apply elem_of_cons in Hin as [Hin|Hin]; [done|]);
            by apply elem_of_nil in Hin).
  all: try (right; left).
  all: split; [intros Hin|].
  all: try (repeat (apply elem_of_cons in Hin as [Hin|Hin]; [done|]);
            by apply elem_of_nil in Hin).
  all: try done.
  all: split; [intros Hin|done].
  all: try done.
  exfalso. apply Hin. right. left.
Qed.

Lemma step_generating_tracked (DEFAULT_GITHUB : JsObject) w ev r :
  generating_tracked w → step DEFAULT_GITHUB w ev = Some r →
  generating_tracked (world r).
Proof.
  unfold generating_tracked. intros Hw H.
  destruct ev; cbn [step] in H; segments; cbn in *; try done;
    by repeat case_match.
Qed.

(** X2.  Along every run from the construction of the service, isGenerating
    is true exactly while a call of the generator is unsettled; the
    generator is never called while an earlier call is unsettled, and a
    generateSite call made in the meantime throws. *)
Theorem generate_exclusive
    (DEFAULT_GITHUB : JsObject) (evs : list Event) (rs : list Reaction) :
  run DEFAULT_GITHUB world0 evs = Some rs →
  generating_tracked (final world0 rs)
  ∧ (∀ i r, rs !! i = Some r → GeneratorGenerateSite ∈ made r →
            generateTask (before world0 rs i) = None
            ∧ generateTask (world r) = Some AwaitGenerateSite)
  ∧ (∀ i r warning,
       rs !! i = Some r → evs !! i = Some (CallGenerateSite warning) →
       generateTask (before world0 rs i) = Some AwaitGenerateSite →
       raised r = Some (EError "generating!") ∧ made r = []
       ∧ world r = before world0 rs i).
Proof.
  intros H. pose proof (step_generating_tracked DEFAULT_GITHUB) as Hstep.
  assert (H0 : generating_tracked world0) by done.
  split; [by eapply run_invariant|]. split.
  - intros i r Hi Hin.
    destruct (run_invariant_before _ _ Hstep _ _ _ _ _ H0 H Hi)
      as (Hb & ev & _ & Hs).
    revert Hb Hs Hin. generalize (before world0 rs i). intros w Hb Hs Hin.
    unfold generating_tracked in Hb.
    destruct ev; cbn [step] in Hs; segments; cbn in *;
      repeat (apply elem_of_cons in Hin as [Hin|Hin]; simplify_eq/=);
      try (by apply elem_of_nil in Hin);
      by repeat case_match.
  - intros i r warning Hi He Hp.
    destruct (run_invariant_before _ _ Hstep _ _ _ _ _ H0 H Hi)
      as (Hb & ev & He' & Hs).
    rewrite He in He'. simplify_eq.
    revert Hb Hs Hp. generalize (before world0 rs i). intros w Hb Hs Hp.
    unfold generating_tracked in Hb. rewrite Hp in Hb.
    cbn [step] in Hs. unfold generateSite in Hs. rewrite Hb in Hs.
    destruct w as [s it gt pts]. cbn in *. by simplify_eq.
Qed.

Lemma generate_exclusive_witness :
  ∃ rs,
    run ∅ world0 run_generate_twice = Some rs
    ∧ generating_tracked (final world0 rs)
    ∧ (∀ i r, rs !! i = Some r → GeneratorGenerateSite ∈ made r →
              generateTask (before world0 rs i) = None
              ∧ generateTask (world r) = Some AwaitGenerateSite)
    ∧ (∀ i r warning,
         rs !! i = Some r → run_generate_twice !! i = Some (CallGenerateSite warning) →
         generateTask (before world0 rs i) = Some AwaitGenerateSite →
         raised r = Some (EError "generating!") ∧ made r = []
         ∧ world r = before world0 rs i).
Proof.
  eexists. split; [vm_compute; reflexivity|].
  apply (generate_exclusive ∅ run_generate_twice).
  vm_compute. reflexivity.
Defined.

(** ** publish: how an attempt proceeds and ends *)

(** X3.  A resumed publish attempt either suspends once more, in the order
    repository creation, grace window, push, leaving isPublishing as it
    was, or ends; however it ends, returning or throwing, isPublishing is
    false afterwards.  After the push settled it always ends. *)
Theorem publish_resume_finally (task : PublishTask) (r : option JsError) (s : State) :
  let o := publish_resume task r s in
  match completion o with
  | Await k =>
      isPublishing (state o) = isPublishing s
      ∧ state o = s
      ∧ ((∃ n, task = AwaitCreateRepository n ∧ r = None ∧ k = AwaitDelay n)
         ∨ (∃ n, task = AwaitDelay n ∧ k = AwaitPush))
  | Return | Throw _ =>
      isPublishing (state o) = false ∧ ∀ n, task ≠ AwaitDelay n
  end.
Proof.
  destruct task as [n|n|], r as [[e|m]|]; cbn; try done.
  all: repeat split; try done; try (left; eauto; fail); right; eauto.
Qed.

Lemma step_publishing_backed (DEFAULT_GITHUB : JsObject) w ev r :
  publishing_backed w → step DEFAULT_GITHUB w ev = Some r →
  publishing_backed (world r).
Proof.
  unfold publishing_backed. intros Hw H.
  assert (Hkeep : ∀ i (k : PublishTask),
    isPublishing (service w) = true →
    ∃ j k', <[i := Some k]> (publishTasks w) !! j = Some (Some k')).
  { intros i k Hp. destruct (Hw Hp) as (j & k' & Hj).
    destruct (decide (i = j)) as [->|Hne].
    - exists j, k. apply list_lookup_insert_eq. by eapply lookup_lt_Some.
    - exists j, k'. by rewrite list_lookup_insert_ne. }
  destruct ev; cbn [step] in H; segments; cbn in *; try done;
    try (intros Hp; destruct (Hw Hp) as (j & k' & Hj); exists j, k';
         try done; by apply lookup_app_l_Some);
    try (intros _; eexists (length (publishTasks w)), _;
         by rewrite lookup_app_r, Nat.sub_diag by done);
    try (intros Hp; eapply Hkeep; eauto; fail);
    try (intros _; by apply Hw);
    try (intros Hp; congruence).
Qed.

(** X4.  isPublishing is never left true without an attempt to reset it:
    along every run from the construction of the service, whenever
    isPublishing is true some publish attempt is suspended. *)
Theorem isPublishing_backed
    (DEFAULT_GITHUB : JsObject) (evs : list Event) (rs : list Reaction) :
  run DEFAULT_GITHUB world0 evs = Some rs →
  isPublishing (service (final world0 rs)) = true →
  ∃ i k, publishTasks (final world0 rs) !! i = Some (Some k).
Proof.
  intros H. eapply (run_invariant _ publishing_backed); [|done|exact H].
  apply step_publishing_backed.
Qed.

Lemma isPublishing_backed_witness :
  ∃ rs,
    run ∅ world0 (take 6 run_create_then_push) = Some rs
    ∧ isPublishing (service (final world0 rs)) = true
    ∧ ∃ i k, publishTasks (final world0 rs) !! i = Some (Some k).
Proof.
  eexists. split; [vm_compute; reflexivity|]. split; [vm_compute; reflexivity|].
  apply (isPublishing_backed ∅ (take 6 run_create_then_push)).
  - vm_compute. reflexivity.
  - vm_compute. reflexivity.
Defined.

(** ** publish: creating the repository *)

Lemma publish_creates (s : State) :
  isPublishing s = false →
  isGithubInfoValid (githubInfo s) = true →
  localRepoStatus s = LocalRepoStatus.MissingRepository →
  publish true s
  = mkOutcome [GithubCreateRepository] (Await (AwaitCreateRepository true))
      (set_isPublishing true (set_publishingProgress initialPublishProgress s)).
Proof.
  intros Hp Hv Hl. unfold publish. rewrite Hp, Hv. cbn [negb].
  unfold needToInit. rewrite orb_true_r. cbn [orb].
  unfold publish_try, isRepositoryMissing.
  cbn [localRepoStatus set_isPublishing refreshPublishingProgress_default
       refreshPublishingProgress set_publishingProgress].
  rewrite Hl. reflexivity.
Qed.

Lemma publish_waits (s : State) (needToCreateRepo : bool) :
  isPublishing s = false →
  isGithubInfoValid (githubInfo s) = true →
  ¬ (needToCreateRepo = true
     ∧ localRepoStatus s = LocalRepoStatus.MissingRepository) →
  calls (publish needToCreateRepo s) = [SetTimeout 3000]
  ∧ completion (publish needToCreateRepo s)
    = Await (AwaitDelay (needToInit needToCreateRepo s))
  ∧ isPublishing (state (publish needToCreateRepo s)) = true.
Proof.
  intros Hp Hv Hn. unfold publish. rewrite Hp, Hv. cbn [negb].
  unfold publish_try.
  set (s1 := if needToInit needToCreateRepo s then _ else _).
  assert (Hl : localRepoStatus (set_isPublishing true s1) = localRepoStatus s).
  { unfold s1. by destruct (needToInit needToCreateRepo s). }
  assert (Hc : needToCreateRepo && isRepositoryMissing (set_isPublishing true s1)
               = false).
  { destruct needToCreateRepo; [|done]. cbn [andb].
    unfold isRepositoryMissing. rewrite Hl.
    apply bool_decide_eq_false_2. intros Hm. by apply Hn. }
  rewrite Hc. done.
Qed.

(** X5.  A publish call that passes both guards asks the Github client to
    create the repository exactly when the caller requested it and the
    local repository status is MissingRepository.  It then makes no other
    call and waits for the creation with the flag true and the publishing
    progress put back to its initial value; otherwise the only call it
    makes is to start the timer of the grace window. *)
Theorem publish_createRepository (s : State) (needToCreateRepo : bool) :
  isPublishing s = false →
  isGithubInfoValid (githubInfo s) = true →
  let o := publish needToCreateRepo s in
  (GithubCreateRepository ∈ calls o ↔
   needToCreateRepo = true ∧ localRepoStatus s = LocalRepoStatus.MissingRepository)
  ∧ (GithubCreateRepository ∈ calls o →
     calls o = [GithubCreateRepository]
     ∧ completion o = Await (AwaitCreateRepository true)
     ∧ publishingProgress (state o) = initialPublishProgress)
  ∧ (GithubCreateRepository ∉ calls o →
     calls o = [SetTimeout 3000]
     ∧ ∃ n, completion o = Await (AwaitDelay n))
  ∧ isPublishing (state o) = true.
Proof.
  intros Hp Hv o. subst o.
  destruct (decide (needToCreateRepo = true
                    ∧ localRepoStatus s = LocalRepoStatus.MissingRepository))
    as [[-> Hl]|Hn].
  - rewrite (publish_creates s Hp Hv Hl). cbn.
    split; [split; [done | intros _; by left]|].
    split; [done|]. split; [|done]. intros Hin. exfalso. apply Hin. by left.
  - destruct (publish_waits s needToCreateRepo Hp Hv Hn) as (Hc & Hk & Hi).
    rewrite Hc, Hk, Hi.
    assert (Hnot : GithubCreateRepository ∉ [SetTimeout 3000]).
    { intros Hin. apply elem_of_cons in Hin as [Hin|Hin]; [done|].
      by apply elem_of_nil in Hin. }
    split; [split; [done | intros Hx; by apply Hn in Hx]|].
    split; [done|]. split; [|done]. eauto.
Qed.

Lemma publish_createRepository_witness :
  let s := set_isPublishing false (service creatingRepoWorld) in
  let o := publish true s in
  (GithubCreateRepository ∈ calls o ↔
   true = true ∧ localRepoStatus s = LocalRepoStatus.MissingRepository)
  ∧ (GithubCreateRepository ∈ calls o →
     calls o = [GithubCreateRepository]
     ∧ completion o = Await (AwaitCreateRepository true)
     ∧ publishingProgress (state o) = initialPublishProgress)
  ∧ (GithubCreateRepository ∉ calls o →
     calls o = [SetTimeout 3000]
     ∧ ∃ n, completion o = Await (AwaitDelay n))
  ∧ isPublishing (state o) = true.
Proof.
  apply (publish_createRepository
           (set_isPublishing false (service creatingRepoWorld)) true).
  - reflexivity.
  - vm_compute. reflexivity.
Defined.

(** X6.  When the creation of the repository fails, the attempt ends there:
    it starts no timer and never pushes, isPublishing is false, and the
    attempt can no longer be resumed.  A PublishError is recorded in the
    publishing progress like a failed push and nothing is thrown; any other
    error is thrown again as it is and the publishing progress stays as it
    was. *)
Theorem createRepository_failed
    (DEFAULT_GITHUB : JsObject) (w : World) (i : nat) (n : bool) (error : JsError) :
  publishTasks w !! i = Some (Some (AwaitCreateRepository n)) →
  ∃ r,
    step DEFAULT_GITHUB w (CreateRepositorySettled i (Some error)) = Some r
    ∧ made r = []
    ∧ isPublishing (service (world r)) = false
    ∧ publishTasks (world r) !! i = Some None
    ∧ step DEFAULT_GITHUB (world r) (TimerFired i) = None
    ∧ (∀ x, step DEFAULT_GITHUB (world r) (PushSettled i x) = None)
    ∧ match error with
      | EPublishError e =>
          raised r = None
          ∧ PublishingProgress.result (publishingProgress (service (world r)))
            = Some (PublishError.type e)
          ∧ publishingProgress (service (world r))
            = publishingProgress
                (state (publish_push_settled (Some error) (service w)))
      | EError _ =>
          raised r = Some error
          ∧ publishingProgress (service (world r)) = publishingProgress (service w)
      end.
Proof.
  intros Hi. cbn [step]. rewrite Hi. eexists. split; [reflexivity|].
  assert (Hlk : <[i := @None PublishTask]> (publishTasks w) !! i = Some None).
  { apply list_lookup_insert_eq. by eapply lookup_lt_Some. }
  destruct error as [e|m]; cbn; rewrite Hlk; done.
Qed.

Lemma createRepository_failed_witness :
  ∃ r,
    step ∅ creatingRepoWorld (CreateRepositorySettled 0 (Some (EError "403"))) = Some r
    ∧ made r = []
    ∧ isPublishing (service (world r)) = false
    ∧ publishTasks (world r) !! 0 = Some None
    ∧ step ∅ (world r) (TimerFired 0) = None
    ∧ (∀ x, step ∅ (world r) (PushSettled 0 x) = None)
    ∧ raised r = Some (EError "403")
    ∧ publishingProgress (service (world r))
      = publishingProgress (service creatingRepoWorld).
Proof.
  apply (createRepository_failed ∅ creatingRepoWorld 0 true (EError "403")).
  reflexivity.
Defined.

(** X7.  push is called only when the timer of a grace window fires: never
    by the publish call itself, nor when the creation of the repository
    settles, nor in reaction to anything else.  It is then handed the files
    of that moment and the flag of the attempt whose timer it was. *)
Theorem push_only_after_timer
    (DEFAULT_GITHUB : JsObject) (w : World) (ev : Event) (r : Reaction)
    (fs : list string) (b : bool) :
  step DEFAULT_GITHUB w ev = Some r →
  GitPush fs b ∈ made r →
  ∃ i, ev = TimerFired i
       ∧ publishTasks w !! i = Some (Some (AwaitDelay b))
       ∧ fs = files (service w)
       ∧ made r = [GitPush fs b]
       ∧ publishTasks (world r) !! i = Some (Some AwaitPush).
Proof.
  intros H Hin. destruct ev; cbn [step] in H.
  all: try (segments;
            repeat (apply elem_of_cons in Hin as [Hin|Hin]; simplify_eq/=);
            by apply elem_of_nil in Hin).
  destruct (publishTasks w !! attempt) as [[[n|n|]|]|] eqn:E; simplify_eq/=.
  apply elem_of_cons in Hin as [Hin|Hin]; [|by apply elem_of_nil in Hin].
  simplify_eq. exists attempt. repeat split; try done.
  apply list_lookup_insert_eq. by eapply lookup_lt_Some.
Qed.

Lemma push_only_after_timer_witness :
  ∃ i, TimerFired 0 = TimerFired i
       ∧ publishTasks graceWindowWorld !! i = Some (Some (AwaitDelay false))
       ∧ [] = files (service graceWindowWorld)
       ∧ made (react_publish_resumed 0
                 (publish_resume (AwaitDelay false) None (service graceWindowWorld))
                 graceWindowWorld) = [GitPush [] false]
       ∧ publishTasks
           (world (react_publish_resumed 0
                     (publish_resume (AwaitDelay false) None (service graceWindowWorld))
                     graceWindowWorld)) !! i = Some (Some AwaitPush).
Proof.
  apply (push_only_after_timer ∅ graceWindowWorld (TimerFired 0)).
  - reflexivity.
  - left.
Defined.

(** ** Events of the collaborators *)

(** X8.  A change of the local repository status is stored and never
    touches the result of the last publish; the status Initializing also
    writes the phase "Local repository initializing..." with an empty
    message, any other status leaves the publishing progress alone.  So the
    next publish that passes the guards pushes with the flag true exactly
    when the last result is Fail, or creation is requested, or the new
    status is Fail. *)
Theorem localRepoStatus_changed (status : LocalRepoStatus.t) (s : State)
    (needToCreateRepo : bool) :
  let s' := handleLocalRepoStatusChanged status s in
  localRepoStatus s' = status
  ∧ PublishingProgress.result (publishingProgress s')
    = PublishingProgress.result (publishingProgress s)
  ∧ publishingProgress s'
    = (if bool_decide (status = LocalRepoStatus.Initializing) then
         {| PublishingProgress.phase := "Local repository initializing...";
            PublishingProgress.message := "";
            PublishingProgress.result :=
              PublishingProgress.result (publishingProgress s) |}
       else publishingProgress s)
  ∧ set_publishingProgress (publishingProgress s) (set_localRepoStatus (localRepoStatus s) s')
    = s
  ∧ (needToInit needToCreateRepo s' = true ↔
     PublishingProgress.result (publishingProgress s) = Some PublishResults.Fail
     ∨ needToCreateRepo = true
     ∨ status = LocalRepoStatus.Fail).
Proof.
  unfold handleLocalRepoStatusChanged.
  destruct s as [f l rn gi ig ip od gp [ph ms rs]].
  case_bool_decide; cbn; rewrite needToInit_true; cbn; done.
Qed.

(** X9.  When the Github client reports that its info changed, the
    publishing progress is put back to its initial value, a recorded result
    included, and nothing else changes and no call is made.  A previous
    Fail therefore no longer forces the next publish to initialise again:
    only a creation request or a failed local repository does. *)
Theorem githubInfoChanged_resets
    (DEFAULT_GITHUB : JsObject) (w : World) (needToCreateRepo : bool) :
  listening w = true →
  ∃ r,
    step DEFAULT_GITHUB w GithubInfoChanged = Some r
    ∧ made r = [] ∧ raised r = None
    ∧ world r
      = mkWorld (set_publishingProgress initialPublishProgress (service w))
          (initTask w) (generateTask w) (publishTasks w)
    ∧ (needToInit needToCreateRepo (service (world r)) = true ↔
       needToCreateRepo = true
       ∨ localRepoStatus (service w) = LocalRepoStatus.Fail).
Proof.
  intros Hl. cbn [step]. rewrite Hl. eexists. split; [reflexivity|].
  do 3 (split; [reflexivity|]).
  rewrite needToInit_true. cbn. split; [intros [?|?]; [done|tauto] | tauto].
Qed.

Lemma githubInfoChanged_resets_witness :
  ∃ r,
    step ∅ failedPublishWorld GithubInfoChanged = Some r
    ∧ made r = [] ∧ raised r = None
    ∧ world r
      = mkWorld (set_publishingProgress initialPublishProgress
                   (service failedPublishWorld))
          (initTask failedPublishWorld) (generateTask failedPublishWorld)
          (publishTasks failedPublishWorld)
    ∧ (needToInit false (service (world r)) = true ↔
       false = true
       ∨ localRepoStatus (service failedPublishWorld) = LocalRepoStatus.Fail).
Proof.
  apply (githubInfoChanged_resets ∅ failedPublishWorld false). reflexivity.
Defined.

(** ** Credentials across a run *)



(** X11.  The record [init] stores is the persisted info laid over the
    token of the secret store laid over the defaults: a key of the persisted
    info wins, token included; without a persisted token the token is the
    one of the secret store, or the empty string when that one is null,
    undefined or empty, so the stored record always has a token key; any
    other key falls back to the default.  The Github client is initialised
    exactly when that record is valid. *)
Theorem init_githubInfo_merge
    (DEFAULT_GITHUB : JsObject) (token : JsVal) (persisted : option JsObject)
    (name : string) (s : State) :
  let o := init_githubInfo DEFAULT_GITHUB token persisted name s in
  ∃ info,
    githubInfo (state o) = Some info
    ∧ (∀ k, info !! k =
            match default ∅ persisted !! k with
            | Some v => Some v
            | None =>
                if decide (k = "token") then
                  Some (JString (match token with JString t => t | _ => "" end))
                else DEFAULT_GITHUB !! k
            end)
    ∧ is_Some (info !! "token")
    ∧ completion o = Return
    ∧ calls o = (if isGithubInfoValid (Some info)
                 then [GithubInit info; GithubGetRepositoryName] else [])
    ∧ repositoryName (state o)
      = (if isGithubInfoValid (Some info) then name else repositoryName s).
Proof.
  unfold init_githubInfo, initGithubClient. cbn.
  set (info := Object_assign _ _).
  exists info.
  assert (Hk : ∀ k, info !! k =
            match default ∅ persisted !! k with
            | Some v => Some v
            | None =>
                if decide (k = "token") then
                  Some (JString (match token with JString t => t | _ => "" end))
                else DEFAULT_GITHUB !! k
            end).
  { intros k. unfold info. rewrite !lookup_Object_assign.
    destruct (default ∅ persisted !! k); [done|].
    case_decide as Hd.
    - subst k. rewrite lookup_singleton_eq. by destruct token.
    - by rewrite lookup_singleton_ne. }
  assert (Ht : is_Some (info !! "token")).
  { rewrite Hk. destruct (default ∅ persisted !! "token"); [eauto|].
    rewrite decide_True by done. eauto. }
  destruct (isGithubInfoValid (Some info)); cbn; done.
Qed.

Lemma saveGithubInfo_githubInfo (arg : JsObject) (name : string) (s : State) :
  githubInfo (state (saveGithubInfo arg name s))
  = (λ current, Object_assign current (Lodash.omit arg ["token"])) <$> githubInfo s.
Proof.
  unfold saveGithubInfo. destruct (githubInfo s) as [current|] eqn:E; [|exact E].
  pose proof (initGithubClient_githubInfo name
    (set_githubInfo (Some (Object_assign current (Lodash.omit arg ["token"]))) s))
    as [Hinfo _].
  destruct (initGithubClient name _) as [cs s2]. cbn in *. done.
Qed.

Lemma lookup_saved_token (current arg : JsObject) :
  Object_assign current (Lodash.omit arg ["token"]) !! "token" = current !! "token".
Proof.
  rewrite lookup_Object_assign, lookup_omit.
  by rewrite decide_True by (apply list_elem_of_singleton; done).
Qed.

Lemma step_token (DEFAULT_GITHUB : JsObject) (tok : option JsVal) w ev r :
  (initTask w = None
   ∧ ∃ o, githubInfo (service w) = Some o ∧ o !! "token" = tok) →
  step DEFAULT_GITHUB w ev = Some r →
  initTask (world r) = None
  ∧ ∃ o, githubInfo (service (world r)) = Some o ∧ o !! "token" = tok.
Proof.
  intros (Hi & o & Ho & Ht) H.
  destruct ev; cbn [step] in H;
    try (rewrite Hi in H; discriminate H);
    try (segments; cbn; eauto; fail).
  simplify_eq/=. split; [done|].
  rewrite saveGithubInfo_githubInfo, Ho.
  exists (Object_assign o (Lodash.omit githubInfo_arg ["token"])).
  split; [reflexivity|]. by rewrite lookup_saved_token.
Qed.

(** X12.  Once [init] has finished, nothing the service does changes the
    token of the stored record or drops the record: after every run the
    record is still there with the token it had, whatever was saved,
    generated or published in between. *)
Theorem token_constant
    (DEFAULT_GITHUB : JsObject) (w : World) (evs : list Event)
    (rs : list Reaction) (o : JsObject) :
  initTask w = None →
  githubInfo (service w) = Some o →
  run DEFAULT_GITHUB w evs = Some rs →
  ∃ o', githubInfo (service (final w rs)) = Some o'
        ∧ o' !! "token" = o !! "token".
Proof.
  intros Hi Ho H.
  apply (run_invariant DEFAULT_GITHUB
           (λ w, initTask w = None
                 ∧ ∃ o', githubInfo (service w) = Some o'
                         ∧ o' !! "token" = o !! "token")
           (step_token DEFAULT_GITHUB (o !! "token")) evs w rs); eauto.
Qed.

Lemma token_constant_witness :
  ∃ rs o',
    run ∅ failedPublishWorld run_save_and_publish = Some rs
    ∧ githubInfo (service (final failedPublishWorld rs)) = Some o'
    ∧ o' !! "userName" = Some (JString "z")
    ∧ o' !! "token" = Some (JString "t").
Proof.
  assert (Hrun : ∃ rs, run ∅ failedPublishWorld run_save_and_publish
                       = Some rs)
    by (eexists; vm_compute; reflexivity).
  destruct Hrun as [rs Hrun]. exists rs.
  destruct (token_constant ∅ failedPublishWorld run_save_and_publish rs
              (<["token" := JString "t"]> sampleGithubInfo)
              eq_refl eq_refl Hrun) as (o' & Ho' & Ht).
  exists o'. split; [exact Hrun|]. split; [exact Ho'|].
  split; [|exact Ht].
  revert Ho'. vm_compute in Hrun. injection Hrun as <-.
  vm_compute. by intros [= <-].
Defined.

Lemma step_init_pending (DEFAULT_GITHUB : JsObject) w ev r :
  init_pending w → step DEFAULT_GITHUB w ev = Some r → init_pending (world r).
Proof.
  unfold init_pending. intros Hw H.
  destruct (initTask w) as [it|] eqn:Hit.
  - destruct (Hw (ltac:(eauto))) as (Hg & Hp & Ht).
    destruct ev; cbn [step] in H;
      try (rewrite Ht in H; discriminate H);
      try (unfold publish, saveGithubInfo in H; rewrite ?Hp, ?Hg in H);
      segments; cbn in *; try done;
      try (intros [? ?]; done); try (intros _; done).
  - destruct ev; cbn [step] in H;
      try (rewrite Hit in H; discriminate H);
      segments; cbn in *; try done;
      try (rewrite Hit; intros [? ?]; done); intros [? ?]; congruence.
Qed.

(** X13.  Until [init] has loaded the credentials nothing can be published
    or saved: along every run from the construction of the service, while
    [init] is unfinished the record is null, no publish attempt exists,
    every publish call throws "invalid github info" and every
    saveGithubInfo call only writes its error to the console, both leaving
    the service as it was. *)
Theorem before_init_finishes
    (DEFAULT_GITHUB : JsObject) (evs : list Event) (rs : list Reaction) :
  run DEFAULT_GITHUB world0 evs = Some rs →
  is_Some (initTask (final world0 rs)) →
  let w := final world0 rs in
  githubInfo (service w) = None
  ∧ isPublishing (service w) = false
  ∧ publishTasks w = []
  ∧ (∀ b, step DEFAULT_GITHUB w (CallPublish b)
          = Some (mkReaction [] (Some (EError "invalid github info")) w))
  ∧ (∀ arg name,
       step DEFAULT_GITHUB w (CallSaveGithubInfo arg name)
       = Some (mkReaction [ConsoleError "this.githubInfo.value is null"] None w)).
Proof.
  intros H Hs w.
  assert (Hinv : init_pending w).
  { eapply (run_invariant _ init_pending); [|by intros _|exact H].
    apply step_init_pending. }
  destruct (Hinv Hs) as (Hg & Hp & Ht).
  do 3 (split; [done|]). split.
  - intros b. cbn [step]. unfold publish. rewrite Hp, Hg. cbn.
    by destruct w.
  - intros arg name. cbn [step]. unfold saveGithubInfo. rewrite Hg. cbn.
    by destruct w.
Qed.

Lemma before_init_finishes_witness :
  ∃ rs,
    run ∅ world0 run_before_init = Some rs
    ∧ let w := final world0 rs in
      githubInfo (service w) = None
      ∧ isPublishing (service w) = false
      ∧ publishTasks w = []
      ∧ (∀ b, step ∅ w (CallPublish b)
              = Some (mkReaction [] (Some (EError "invalid github info")) w))
      ∧ (∀ arg name,
           step ∅ w (CallSaveGithubInfo arg name)
           = Some (mkReaction [ConsoleError "this.githubInfo.value is null"] None w)).
Proof.
  eexists. split; [vm_compute; reflexivity|].
  apply (before_init_finishes ∅ run_before_init).
  - vm_compute. reflexivity.
  - vm_compute. eauto.
Defined.

(** ** Credential validity across a run *)

Lemma initGithubClient_isPublishing (name : string) (s : State) :
  isPublishing (initGithubClient name s).2 = isPublishing s.
Proof. unfold initGithubClient. by repeat case_match. Qed.

Lemma step_publishing_has_keys (DEFAULT_GITHUB : JsObject) w ev r :
  init_pending w ∧ publishing_has_keys w →
  step DEFAULT_GITHUB w ev = Some r →
  init_pending (world r) ∧ publishing_has_keys (world r).
Proof.
  intros [Hi Hk] H. split; [by eapply step_init_pending|].
  unfold publishing_has_keys in *.
  destruct ev; cbn [step] in H.
  - (* generateSite *)
    unfold generateSite in H. repeat case_match; simplify_eq; exact Hk.
  - (* publish *)
    unfold publish in H.
    destruct (isPublishing (service w)) eqn:Hp.
    { simplify_eq. cbn. by rewrite Hp. }
    destruct (isGithubInfoValid (githubInfo (service w))) eqn:Hv;
      [|simplify_eq; cbn; congruence].
    destruct (githubInfo (service w)) as [o|] eqn:Ho; [|done].
    intros _. exists o. split.
    + simplify_eq. unfold publish_try, publish_delay.
      repeat case_match; cbn; done.
    + intros k Hin.
      destruct (proj1 (isGithubInfoValid_Some o) Hv k Hin) as (v & -> & _). eauto.
  - (* stopPublishing *) simplify_eq. cbn. done.
  - (* saveGithubInfo *)
    simplify_eq. cbn [world react_sync service].
    rewrite saveGithubInfo_githubInfo.
    assert (Hsame : isPublishing (state (saveGithubInfo githubInfo_arg name (service w)))
                    = isPublishing (service w)).
    { unfold saveGithubInfo. destruct (githubInfo (service w)) as [cur|]; [|done].
      match goal with
      | |- context [initGithubClient ?n ?s] =>
          pose proof (initGithubClient_isPublishing n s) as Hc;
          destruct (initGithubClient n s) as [cs s1]
      end. cbn in *. done. }
    rewrite Hsame. intros Hp. destruct (Hk Hp) as (o & -> & Hkeys).
    eexists. split; [reflexivity|]. intros k Hin.
    rewrite lookup_Object_assign. destruct (Hkeys k Hin) as [v ->].
    by destruct (Lodash.omit _ _ !! k).
  - (* output directory *)
    destruct (initTask w) as [[| |tk]|]; simplify_eq. exact Hk.
  - destruct (initTask w) as [[| |tk]|]; simplify_eq. exact Hk.
  - (* the credentials arrive: no publish can be in flight *)
    destruct (initTask w) as [[| |tk]|] eqn:Hit; simplify_eq.
    destruct (Hi (ltac:(eauto))) as (_ & Hp & _).
    cbn [world react_init service].
    assert (Hfalse : isPublishing
              (state (init_githubInfo DEFAULT_GITHUB tk persisted name (service w)))
            = false).
    { unfold init_githubInfo.
      match goal with
      | |- context [initGithubClient ?n ?s] =>
          pose proof (initGithubClient_isPublishing n s) as Hc;
          destruct (initGithubClient n s) as [cs s1]
      end. cbn in *. congruence. }
    intros Hx. congruence.
  - (* the generator settled *)
    destruct (generateTask w) as [[]|]; simplify_eq. by destruct r0.
  - (* publish attempts resumed *)
    destruct (publishTasks w !! attempt) as [[[n|n|]|]|]; simplify_eq.
    destruct r0 as [[e|m]|]; cbn; try done; exact Hk.
  - destruct (publishTasks w !! attempt) as [[[n|n|]|]|]; simplify_eq. exact Hk.
  - destruct (publishTasks w !! attempt) as [[[n|n|]|]|]; simplify_eq.
    destruct r0 as [[e|m]|]; cbn; done.
  - (* events of the collaborators *)
    simplify_eq. cbn. destruct (listening w); exact Hk.
  - simplify_eq. cbn. destruct (listening w); exact Hk.
  - simplify_eq. cbn. unfold handleLocalRepoStatusChanged.
    destruct (listening w); [|exact Hk]. case_bool_decide; exact Hk.
  - simplify_eq. cbn. destruct (listening w); exact Hk.
  - simplify_eq. cbn. destruct (listening w); exact Hk.
Qed.

(** C4.  The derived validity is true exactly when the record is not null
    and each of userName, email and token is present with a value that is
    neither null, nor undefined, nor the empty string.  A record that is
    null or lacks one of the three keys is invalid, and along every run
    from the construction of the service a publish call that finds such a
    record throws "invalid github info", having made no call and changed
    nothing. *)
Theorem isGithubInfoValid_spec
    (DEFAULT_GITHUB : JsObject) (evs : list Event) (rs : list Reaction)
    (info : option JsObject) :
  (isGithubInfoValid info = true ↔
   ∃ o, info = Some o ∧
     ∀ k, k ∈ ["userName"; "email"; "token"] →
       ∃ v, o !! k = Some v ∧ v ≠ JUndefined ∧ v ≠ JNull ∧ v ≠ JString "")
  ∧ (run DEFAULT_GITHUB world0 evs = Some rs →
     githubInfo (service (final world0 rs)) = info →
     (info = None ∨
      ∃ o k, info = Some o ∧ k ∈ ["userName"; "email"; "token"] ∧ o !! k = None) →
     isGithubInfoValid info = false
     ∧ ∀ needToCreateRepo,
         step DEFAULT_GITHUB (final world0 rs) (CallPublish needToCreateRepo)
         = Some (mkReaction [] (Some (EError "invalid github info"))
                   (final world0 rs))).
Proof.
  destruct (isGithubInfoValid_iff info) as [Hiff Hbad].
  split; [exact Hiff|]. intros Hrun Hinfo Hmiss.
  set (w := final world0 rs) in *.
  destruct (Hbad (service w) false Hinfo Hmiss) as [Hinv _].
  split; [exact Hinv|]. intros b.
  assert (Hw : init_pending w ∧ publishing_has_keys w).
  { apply (run_invariant DEFAULT_GITHUB
             (λ w, init_pending w ∧ publishing_has_keys w)
             (step_publishing_has_keys DEFAULT_GITHUB) evs world0 rs);
      [|exact Hrun].
    split; [by intros _|]. intros Hp. discriminate Hp. }
  destruct Hw as [_ Hk].
  assert (Hp : isPublishing (service w) = false).
  { destruct (isPublishing (service w)) eqn:Hp; [|done]. exfalso.
    destruct (Hk Hp) as (o & Ho & Hkeys). rewrite Hinfo in Ho.
    destruct Hmiss as [->|(o' & k & -> & Hin & Hnone)]; [done|].
    simplify_eq. destruct (Hkeys k Hin) as [v Hv]. congruence. }
  destruct (Hbad (service w) b Hinfo Hmiss) as [_ Hthrow].
  cbn [step]. rewrite (Hthrow Hp). by destruct w.
Qed.

Lemma isGithubInfoValid_spec_witness :
  ∃ rs,
    run ∅ world0 run_no_persisted_info = Some rs
    ∧ githubInfo (service (final world0 rs)) = Some {["token" := JString "t"]}
    ∧ isGithubInfoValid (Some {["token" := JString "t"]}) = false
    ∧ ∀ needToCreateRepo,
        step ∅ (final world0 rs) (CallPublish needToCreateRepo)
        = Some (mkReaction [] (Some (EError "invalid github info"))
                  (final world0 rs)).
Proof.
  eexists. split; [vm_compute; reflexivity|]. split; [vm_compute; reflexivity|].
  apply (proj2 (isGithubInfoValid_spec ∅ run_no_persisted_info _
                  (Some {["token" := JString "t"]}))).
  - vm_compute. reflexivity.
  - vm_compute. reflexivity.
  - right. exists {["token" := JString "t"]}, "userName".
    split; [reflexivity|]. split; [left | vm_compute; reflexivity].
Defined.

(** ** What the methods leave alone *)

(** X14.  publish and stopPublishing write no field but isPublishing and
    publishingProgress: the call of publish, every resumption of an attempt
    and stopPublishing leave files, the credentials, repositoryName,
    localRepoStatus, outputDir and the state of generation as they were. *)
Theorem publish_frame (needToCreateRepo : bool) (task : PublishTask)
    (r : option JsError) (s : State) :
  let restore s' :=
    set_isPublishing (isPublishing s)
      (set_publishingProgress (publishingProgress s) s') in
  restore (state (publish needToCreateRepo s)) = s
  ∧ restore (state (publish_resume task r s)) = s
  ∧ restore (state (stopPublishing s)) = s.
Proof.
  destruct s as [f l rn gi ig ip od gp pp]. cbn. split; [|split].
  - unfold publish. cbn. destruct ip; [done|].
    destruct (isGithubInfoValid gi); [|done]. cbn.
    unfold publish_try, publish_delay.
    destruct (needToInit _ _); cbn; destruct (_ && _); done.
  - destruct task as [n|n|], r as [[e|m]|]; done.
  - done.
Qed.

(** X15.  generateSite writes no field but isGenerating, generatingProgress
    and files: its call and the settlement of the generator leave the
    credentials, repositoryName, localRepoStatus, outputDir, isPublishing
    and the publishing progress as they were; and files are written only
    when the generator resolved. *)
Theorem generateSite_frame (warning : bool) (r : list string + Error) (s : State) :
  let restore s' :=
    set_files (files s)
      (set_isGenerating (isGenerating s)
         (set_generatingProgress (generatingProgress s) s')) in
  restore (state (generateSite warning s)) = s
  ∧ restore (state (generateSite_settled r s)) = s
  ∧ files (state (generateSite warning s)) = files s
  ∧ (files (state (generateSite_settled r s)) ≠ files s → ∃ fs, r = inl fs).
Proof.
  destruct s as [f l rn gi ig ip od gp pp]. cbn. repeat split.
  - unfold generateSite. cbn. by destruct ig, warning.
  - by destruct r.
  - unfold generateSite. cbn. by destruct ig, warning.
  - destruct r as [fs|e]; [eauto|]. cbn. done.
Qed.

(** ** saveGithubInfo: one call after another *)

(** X16.  Two saveGithubInfo calls in a row store the same record as one
    call with the second argument laid over the first; so a call repeated
    with the same argument, or made with an empty argument, stores nothing
    new. *)
Theorem saveGithubInfo_twice (arg1 arg2 : JsObject) (name1 name2 name : string)
    (s : State) :
  githubInfo (state (saveGithubInfo arg2 name2 (state (saveGithubInfo arg1 name1 s))))
  = githubInfo (state (saveGithubInfo (Object_assign arg1 arg2) name s))
  ∧ githubInfo (state (saveGithubInfo arg1 name2 (state (saveGithubInfo arg1 name1 s))))
    = githubInfo (state (saveGithubInfo arg1 name1 s))
  ∧ githubInfo (state (saveGithubInfo ∅ name s)) = githubInfo s.
Proof.
  rewrite !saveGithubInfo_githubInfo.
  destruct (githubInfo s) as [current|]; [|done]. cbn [fmap option_fmap option_map].
  split; [|split]; f_equal; apply map_eq; intros k.
  - rewrite !lookup_Object_assign, !lookup_omit, lookup_Object_assign.
    case_decide; [done|]. by destruct (arg2 !! k).
  - rewrite !lookup_Object_assign, !lookup_omit.
    case_decide; [done|]. by destruct (arg1 !! k).
  - rewrite lookup_Object_assign, lookup_omit, lookup_empty. by case_decide.
Qed.

(** ** The message of a classified failure *)

(** X17.  The message recorded for a PublishError never begins or ends with
    white space, whichever of the white space and line terminator code
    points it is; when the error has no message of its own, or an empty
    one, the recorded message is exactly the fixed explanation of its
    type. *)
Theorem publish_error_message (s : State) (e : PublishError.t) :
  let m := PublishingProgress.message
             (publishingProgress
                (state (publish_push_settled (Some (EPublishError e)) s))) in
  ¬ startsWithWhiteSpace m
  ∧ ¬ endsWithWhiteSpace m
  ∧ match PublishError.message e with
    | None | Some EmptyString => m = PUBLISH_RESULT_MESSAGE (PublishError.type e)
    | Some (String _ _) => True
    end.
Proof.
  cbn [publish_push_settled publish_catch instanceof_PublishError
       state publishingProgress set_publishingProgress publish_finally
       set_isPublishing PublishingProgress.message].
  destruct (trim_spec (default "" (PublishError.message e) +:+ " "
                       +:+ PUBLISH_RESULT_MESSAGE (PublishError.type e)))
    as (front & back & _ & _ & _ & Hs & He).
  split; [exact Hs|]. split; [exact He|].
  destruct e as [[] [[|c own]|]]; cbn [PublishError.message PublishError.type];
    try done; vm_compute; reflexivity.
Qed.

(** ** selfish: what reading costs and what it tells apart *)

Module SelfishReads.
Import Selfish SelfishFacts.

(** What the handler does to the cache and to the count of bound functions,
    once [Reflect.get] has yielded. *)
Lemma get_cost (read : Proxy * Heap → string → Access * (Proxy * Heap))
    (G : Getters) (ph : Proxy * Heap) (key : string) :
  let reflected := Reflect_get read G ph (target ph.1) key in
  let trap := get read G ph key in
  match reflected.1 with
  | Some (Fun f) =>
      if WeakMap_has (cache reflected.2.1) f then trap.2 = reflected.2
      else
        cache trap.2.1
        = ((f, Bound (bounds reflected.2.2) f (target reflected.2.1))
           :: cache reflected.2.1)
        ∧ (f ∉ (cache reflected.2.1).*1)
        ∧ bounds trap.2.2 = S (bounds reflected.2.2)
        ∧ objects trap.2.2 = objects reflected.2.2
  | _ => trap.2 = reflected.2
  end.
Proof.
  cbn zeta. rewrite get_eq. cbn zeta.
  destruct (Reflect_get read G ph (target ph.1) key) as [[[v|r|f]|] [p h]];
    cbn [fst snd]; try done.
  rewrite WeakMap_has_find.
  destruct (WeakMap_find (cache p) f) as [b|] eqn:Ef.
  - by rewrite bool_decide_eq_true_2 by done.
  - rewrite bool_decide_eq_false_2 by tauto.
    destruct (filter_absent _ _ Ef) as [Hfl Hnot].
    cbn [fst snd cache bounds objects]. unfold WeakMap_set. by rewrite Hfl.
Qed.

(** X18.  Whatever happened since the proxy was made, and whatever the
    getters of the program do, reads through the proxy among it: the cache
    holds one entry per function and an entry is never replaced nor
    removed.  Once [Reflect.get] has yielded, the handler adds one entry
    and makes one bound function when what it yielded is a function that
    is not in the cache; otherwise it leaves the cache alone and makes
    none; either way it changes no property of any object.  A read of a
    data property or of a missing key runs no getter, so the whole access
    changes no property, also when it throws. *)
Theorem reads_bind_once (G : Getters) (depth : nat) (t : nat) (h0 : Heap)
    (ops : list Op) (key : string) :
  let ph := execs depth G (selfish t, h0) ops in
  let reflected := Reflect_get (nested depth G) G ph t key in
  let access := Proxy_get depth G ph key in
  NoDup (cache ph.1).*1
  ∧ NoDup (cache access.2.1).*1
  ∧ (∀ f b, WeakMap_find (cache ph.1) f = Some b →
            WeakMap_find (cache access.2.1) f = Some b)
  ∧ match reflected.1 with
    | Some (Fun f) =>
        if WeakMap_has (cache reflected.2.1) f then access.2 = reflected.2
        else
          cache access.2.1
          = ((f, Bound (bounds reflected.2.2) f t) :: cache reflected.2.1)
          ∧ (f ∉ (cache reflected.2.1).*1)
          ∧ bounds access.2.2 = S (bounds reflected.2.2)
          ∧ objects access.2.2 = objects reflected.2.2
    | _ => access.2 = reflected.2
    end
  ∧ ((∃ v locked, property ph.2 t key = Some (Data v locked))
     ∨ property ph.2 t key = None →
     reflected.2 = ph ∧ objects access.2.2 = objects ph.2).
Proof.
  intros ph reflected access.
  set (read := nested depth G) in *.
  pose proof (nested_keeps depth G) as Hk. fold read in Hk.
  destruct (execs_keeps depth G (selfish t, h0) ops (selfish_sound t))
    as [Hs [Ht _]].
  fold ph in Hs, Ht. cbn [fst selfish target] in Ht.
  destruct (Proxy_get_keeps depth G ph key Hs) as [Hs1 [_ Hm]].
  fold access in Hs1, Hm.
  assert (Hstate : access.2 = (get read G ph key).2).
  { subst access. by rewrite Proxy_get_eq, Proxy_get_with_state. }
  split; [apply Hs|]. split; [apply Hs1|]. split; [exact Hm|].
  pose proof (get_cost read G ph key) as Hc. cbn zeta in Hc.
  rewrite Ht in Hc. fold reflected in Hc. rewrite <- Hstate in Hc.
  destruct (Reflect_get_keeps read G Hk ph t key Hs) as [_ [Htr _]].
  fold reflected in Htr. rewrite Htr, Ht in Hc.
  split; [exact Hc|].
  intros Hprop.
  assert (Hr : reflected.2 = ph).
  { subst reflected. destruct Hprop as [(v & locked & Hp)|Hp].
    - by rewrite (Reflect_get_data read G ph t key _ _ Hp).
    - by rewrite (Reflect_get_missing read G ph t key Hp). }
  split; [exact Hr|].
  rewrite Hstate, get_objects, Ht. fold reflected. by rewrite Hr.
Qed.

(** X19.  Through the proxy, reads of two data properties that are not
    locked and hold functions both return a bound function; the two are
    identical exactly when the properties hold the same function, so
    different functions are never given the same bound function; and what
    is returned for a function is never that function itself. *)
Theorem selfish_tells_apart (G : Getters) (depth : nat) (t : nat) (h0 : Heap)
    (ops : list Op) (key1 key2 : string) (f g : Fn) :
  let ph := execs depth G (selfish t, h0) ops in
  property ph.2 t key1 = Some (Data (Fun f) false) →
  property ph.2 t key2 = Some (Data (Fun g) false) →
  let first := Proxy_get depth G ph key1 in
  let second := Proxy_get depth G first.2 key2 in
  ∃ b1 b2,
    first.1 = Normal (Fun b1)
    ∧ second.1 = Normal (Fun b2)
    ∧ (b1 = b2 ↔ f = g)
    ∧ b1 ≠ f ∧ b2 ≠ g.
Proof.
  intros ph Hp1 Hp2 first second.
  set (read := nested depth G) in *.
  pose proof (nested_keeps depth G) as Hk. fold read in Hk.
  destruct (execs_keeps depth G (selfish t, h0) ops (selfish_sound t))
    as [Hs [Ht _]].
  fold ph in Hs, Ht. cbn [fst selfish target] in Ht.
  rewrite <- Ht in Hp1.
  destruct (Proxy_get_data_function depth G ph key1 f false Hs Hp1)
    as (n1 & Hv1 & Ha1).
  fold first in Ha1. fold read in Hv1. rewrite Ht in Hv1, Ha1, Hp1.
  (* the state after the first read *)
  destruct (Proxy_get_keeps depth G ph key1 Hs) as [Hs1 [Ht1 Hm1]].
  fold first in Hs1, Ht1, Hm1.
  assert (Hstate : first.2 = (get read G ph key1).2).
  { subst first. by rewrite Proxy_get_eq, Proxy_get_with_state. }
  assert (Ho : objects first.2.2 = objects ph.2).
  { rewrite Hstate, get_objects, Ht.
    by rewrite (Reflect_get_data read G ph t key1 _ _ Hp1). }
  assert (Hc1 : WeakMap_find (cache first.2.1) f = Some (Bound n1 f t)).
  { assert (E : (Reflect_get read G ph (target ph.1) key1).1 = Some (Fun f)).
    { rewrite Ht. by rewrite (Reflect_get_data read G ph t key1 _ _ Hp1). }
    destruct (get_bound read G Hk ph key1 f Hs E) as (n & Hv & Hc).
    rewrite Ht in Hv, Hc. rewrite Hv1 in Hv. simplify_eq.
    by rewrite Hstate. }
  assert (Hp2' : property first.2.2 (target first.2.1) key2
                 = Some (Data (Fun g) false)).
  { unfold property. rewrite Ho, Ht1, Ht. exact Hp2. }
  destruct (Proxy_get_data_function depth G first.2 key2 g false Hs1 Hp2')
    as (n2 & Hv2 & Ha2).
  fold second in Ha2. fold read in Hv2. rewrite Ht1, Ht in Hv2, Ha2, Hp2'.
  exists (Bound n1 f t), (Bound n2 g t).
  split; [exact Ha1|]. split; [exact Ha2|].
  split; [|split; apply Bound_neq].
  split; [by intros [= _ ->]|]. intros <-. f_equal.
  assert (E2 : (Reflect_get read G first.2 (target first.2.1) key2).1
               = Some (Fun f)).
  { rewrite Ht1, Ht. by rewrite (Reflect_get_data read G first.2 t key2 _ _ Hp2'). }
  pose proof (get_cached read G Hk first.2 key2 f _ Hs1 E2 Hc1) as Hv.
  rewrite Hv2 in Hv. by simplify_eq.
Qed.

Lemma selfish_tells_apart_witness :
  let ph := execs 1 sampleGetters (selfish 0, accessorHeap) [Read "current"] in
  let first := Proxy_get 1 sampleGetters ph "start" in
  let second := Proxy_get 1 sampleGetters first.2 "stop" in
  ∃ b1 b2,
    first.1 = Normal (Fun b1)
    ∧ second.1 = Normal (Fun b2)
    ∧ (b1 = b2 ↔ Plain 1 = Plain 2)
    ∧ b1 ≠ Plain 1 ∧ b2 ≠ Plain 2.
Proof.
  apply (selfish_tells_apart sampleGetters 1 0 accessorHeap [Read "current"]
           "start" "stop" (Plain 1) (Plain 2)).
  - vm_compute. reflexivity.
  - vm_compute. reflexivity.
Defined.

End SelfishReads.
